(** * NormalizedSoftmaxLoss: a verification development

    Source: [pytorch_metric_learning/losses/normalized_softmax_loss.py].

    The loss module keeps a parameter matrix [W] (embedding_size x num_classes)
    and a temperature.  [compute_loss] normalises the columns of [W], forms
    logits [embeddings @ normalized_W / temperature], takes the unreduced
    cross-entropy against the labels, weights it by the miner weights, averages,
    and adds the regulariser's value on the transpose of [W].

    Numbers are modelled as real numbers (exact arithmetic).  What the tensor
    runtime does instead of raising (a division by zero, the mean of an empty
    tensor) is tracked by a flag of the machine state, [finite].  Rounding is
    outside this development; overflow is looked at in the module [Binary64],
    which runs the same statements on binary64 numbers.

    Tensors live in a heap of objects addressed by references, the way Python
    passes them around; every tensor operation used by the source is
    out-of-place and allocates its result. *)

From Stdlib Require Import Reals Lra Lia List ZArith Psatz Permutation Bool Arith.
From Corelib Require PrimFloat.
Import ListNotations.
Local Open Scope R_scope.

(** ** Values of tensors *)

Module Tensor.

(** Sum of a one-dimensional tensor. *)
Definition vsum (v : list R) : R := fold_right Rplus 0 v.

(** Sum of [f 0 .. f (n-1)]. *)
Definition Rsum (n : nat) (f : nat -> R) : R := vsum (map f (seq 0 n)).

(** A two-dimensional tensor: its shape and its entries.  Entries outside the
    shape are never read by the operations below. *)
Record matrix : Type := mkMatrix {
  rows : nat;
  cols : nat;
  entry : nat -> nat -> R
}.

Definition numel (A : matrix) : nat := (rows A * cols A)%nat.

(** [A.t()] *)
Definition transpose (A : matrix) : matrix :=
  {| rows := cols A; cols := rows A; entry := fun i j => entry A j i |}.

(** Inner product of row [i] of [A] with column [j] of [B], over [n] terms. *)
Definition dot (n : nat) (A : matrix) (i : nat) (B : matrix) (j : nat) : R :=
  Rsum n (fun k => entry A i k * entry B k j).

(** The product of [A] (n x k) and [B] (k x m); the caller checks the shapes. *)
Definition mmul (A B : matrix) : matrix :=
  {| rows := rows A; cols := cols B;
     entry := fun i j => dot (cols A) A i B j |}.

(** Division of every entry by a scalar. *)
Definition div_scalar (A : matrix) (t : R) : matrix :=
  {| rows := rows A; cols := cols A; entry := fun i j => entry A i j / t |}.

(** L2 norm of column [j]. *)
Definition col_norm (A : matrix) (j : nat) : R :=
  sqrt (Rsum (rows A) (fun i => entry A i j * entry A i j)).

(** L2 norm of row [i]. *)
Definition row_norm (A : matrix) (i : nat) : R :=
  sqrt (Rsum (cols A) (fun k => entry A i k * entry A i k)).

(** The default [eps] of [torch.nn.functional.normalize]. *)
Definition eps : R := 1e-12.

(** What the entries of column [j] are divided by: the norm of the column,
    clamped from below by [eps] ([norm.clamp_min(eps)]). *)
Definition denominator (A : matrix) (j : nat) : R := Rmax (col_norm A j) eps.

(** [normalize(A, p=2, dim=0)]: every entry divided by the denominator of its
    column. *)
Definition normalize_dim0 (A : matrix) : matrix :=
  {| rows := rows A; cols := cols A;
     entry := fun i j => entry A i j / denominator A j |}.

(** Normalising [A] stays within the reals: no column is divided by zero. *)
Definition divisors_nonzero (A : matrix) : bool :=
  forallb (fun j => if Req_dec_T (denominator A j) 0 then false else true)
          (seq 0 (cols A)).

(** [log_softmax] along the class dimension, entry [(i, j)]. *)
Definition log_softmax (x : matrix) (i j : nat) : R :=
  entry x i j - ln (Rsum (cols x) (fun k => exp (entry x i k))).

(** The default [ignore_index] of [CrossEntropyLoss]. *)
Definition ignore_index : Z := (-100)%Z.

(** Negative log-likelihood of sample [i] with target [y]; an ignored target
    contributes 0. *)
Definition nll (x : matrix) (i : nat) (y : Z) : R :=
  if (y =? ignore_index)%Z then 0 else - log_softmax x i (Z.to_nat y).

(** A target is accepted when it is ignored or names one of the [C] classes. *)
Definition target_ok (C : nat) (y : Z) : bool :=
  (y =? ignore_index)%Z || ((0 <=? y)%Z && (y <? Z.of_nat C)%Z).

Definition targets_ok (C : nat) (target : list Z) : bool :=
  forallb (target_ok C) target.

(** Per-sample losses of a batch: sample [i] is paired with target [i]. *)
Definition nll_batch (x : matrix) (target : list Z) : list R :=
  map (fun iy => nll x (fst iy) (snd iy)) (combine (seq 0 (rows x)) target).

(** Elementwise product of two one-dimensional tensors of the same length. *)
Fixpoint vmul (a b : list R) : list R :=
  match a, b with
  | x :: a', y :: b' => x * y :: vmul a' b'
  | _, _ => []
  end.

(** [a * b] on one-dimensional tensors under broadcasting: equal lengths
    multiply elementwise, a tensor of one element is stretched, any other
    pair of shapes is refused. *)
Definition bmul (u v : list R) : option (list R) :=
  if (length u =? length v)%nat then Some (vmul u v)
  else match u, v with
       | [x], _ => Some (map (fun y => x * y) v)
       | _, [y] => Some (map (fun x => x * y) u)
       | _, _ => None
       end.

(** Mean of a one-dimensional tensor (the caller deals with the empty one). *)
Definition vmean (v : list R) : R := vsum v / INR (length v).

(** Dividing [A] by [t] stays within the reals: [t] is not zero, or there is
    no entry to divide.  This is division in exact arithmetic; a quotient too
    large for a machine format is the business of [Binary64] below. *)
Definition div_finite (A : matrix) (t : R) : bool :=
  if Req_dec_T t 0 then (numel A =? 0)%nat else true.

(** The mean of [v] is a real number: [v] is not empty. *)
Definition mean_finite (v : list R) : bool := negb (length v =? 0)%nat.

End Tensor.
Export Tensor.

(** ** Objects, heap and the machine monad *)

Definition ref : Type := nat.

(** The attributes [__init__] sets on the module that hold data: the
    temperature (a Python number) and the parameter [W] (a reference to a
    tensor). *)
Record NormalizedSoftmaxLoss : Type := mkLoss {
  temperature : R;
  W : ref
}.

Inductive value : Type :=
| Scalar (r : R)                      (* zero-dimensional tensor *)
| Vec (v : list R)                    (* one-dimensional float tensor *)
| Labels (l : list Z)                 (* one-dimensional integer tensor *)
| Mat (A : matrix)                    (* two-dimensional float tensor *)
| Obj (o : NormalizedSoftmaxLoss).    (* the loss module itself *)

Inductive exn : Type :=
| RuntimeError      (* shapes that cannot be multiplied or broadcast *)
| ValueError        (* batch sizes of input and target differ *)
| IndexError        (* a target outside the classes *)
| TypeError.        (* an object of the wrong kind, or no object *)

(** The state a call runs in.  [finite] is cleared when an operation leaves the
    real numbers without raising: the runtime then carries inf or nan, and the
    numbers of this model say nothing about the result. *)
Record machine : Type := mkMachine {
  heap : list value;
  finite : bool
}.

Definition M (A : Type) : Type := machine -> (exn + A) * machine.

Definition ret {A : Type} (a : A) : M A := fun m => (inr a, m).

Definition bind {A B : Type} (c : M A) (k : A -> M B) : M B :=
  fun m => match c m with
           | (inl e, m') => (inl e, m')
           | (inr a, m') => k a m'
           end.

Definition raise {A : Type} (e : exn) : M A := fun m => (inl e, m).

Notation "x <- c ;; k" := (bind c (fun x => k))
  (at level 61, c at next level, right associativity).
Notation "c ;;; k" := (bind c (fun _ => k))
  (at level 61, right associativity).

(** The machine after one more object was allocated. *)
Definition push (m : machine) (v : value) : machine :=
  {| heap := heap m ++ [v]; finite := finite m |}.

Definition alloc (v : value) : M ref :=
  fun m => (inr (length (heap m)), push m v).

Definition load (r : ref) : M value :=
  fun m => match nth_error (heap m) r with
           | Some v => (inr v, m)
           | None => (inl TypeError, m)
           end.

(** The machine with [finite] cleared unless [b] holds. *)
Definition mark (m : machine) (b : bool) : machine :=
  {| heap := heap m; finite := finite m && b |}.

(** An operation that never raises: when [b] is false it produced inf or nan,
    and the call goes on. *)
Definition stays_finite (b : bool) : M unit :=
  fun m => (inr tt, mark m b).

Definition as_mat (r : ref) : M matrix :=
  v <- load r ;; match v with Mat A => ret A | _ => raise TypeError end.

Definition as_vec (r : ref) : M (list R) :=
  v <- load r ;; match v with Vec a => ret a | _ => raise TypeError end.

Definition as_labels (r : ref) : M (list Z) :=
  v <- load r ;; match v with Labels l => ret l | _ => raise TypeError end.

Definition as_scalar (r : ref) : M R :=
  v <- load r ;; match v with Scalar x => ret x | _ => raise TypeError end.

Definition as_obj (r : ref) : M NormalizedSoftmaxLoss :=
  v <- load r ;; match v with Obj o => ret o | _ => raise TypeError end.

(** ** The tensor library, as the source calls it *)

Module torch.

(** [torch.randn(n, k)]: the samples are an input of the model. *)
Definition randn (sample : nat -> nat -> R) (n k : Z) : M ref :=
  if ((n <? 0) || (k <? 0))%Z then raise RuntimeError
  else alloc (Mat {| rows := Z.to_nat n; cols := Z.to_nat k; entry := sample |}).

(** [torch.nn.Parameter(t)] wraps the tensor; the parameter is that tensor. *)
Definition nn_Parameter (data : ref) : M ref := ret data.

(** [torch.nn.functional.normalize(a, p=2, dim=0)] *)
Definition normalize_p2_dim0 (a : ref) : M ref :=
  A <- as_mat a ;;
  stays_finite (divisors_nonzero A) ;;;
  alloc (Mat (normalize_dim0 A)).

(** [torch.matmul(a, b)] on two-dimensional tensors. *)
Definition matmul (a b : ref) : M ref :=
  A <- as_mat a ;;
  B <- as_mat b ;;
  if (cols A =? rows B)%nat then alloc (Mat (mmul A B)) else raise RuntimeError.

(** [a / t] for a tensor and a Python number.  No division raises: by zero,
    every entry becomes inf or nan. *)
Definition div (a : ref) (t : R) : M ref :=
  A <- as_mat a ;;
  stays_finite (div_finite A t) ;;;
  alloc (Mat (div_scalar A t)).

(** [CrossEntropyLoss(reduction='none')(input, target)]: one loss per sample. *)
Definition cross_entropy_none (input target : ref) : M ref :=
  x <- as_mat input ;;
  y <- as_labels target ;;
  if negb (rows x =? length y)%nat then raise ValueError
  else if negb (targets_ok (cols x) y) then raise IndexError
  else alloc (Vec (nll_batch x y)).

(** [a * b] on one-dimensional tensors, a tensor of one element broadcast. *)
Definition mul (a b : ref) : M ref :=
  u <- as_vec a ;;
  v <- as_vec b ;;
  match bmul u v with
  | Some p => alloc (Vec p)
  | None => raise RuntimeError
  end.

(** [torch.mean(a)]: of an empty tensor it is nan. *)
Definition mean (a : ref) : M ref :=
  u <- as_vec a ;;
  stays_finite (mean_finite u) ;;;
  alloc (Scalar (vmean u)).

(** [a.t()]: a view on the storage of [a].  Nothing in a call writes through
    it, so the model keeps the value of the view as an object of its own. *)
Definition t (a : ref) : M ref :=
  A <- as_mat a ;; alloc (Mat (transpose A)).

(** [a + b] on scalars. *)
Definition add (a b : ref) : M ref :=
  x <- as_scalar a ;;
  y <- as_scalar b ;;
  alloc (Scalar (x + y)).

End torch.

(** ** The loss module *)

Section Loss.

(** What a miner hands over: [None] or a tuple of index tensors.  The loss
    only passes it on. *)
Variable indices_tuple_t : Type.

(** [lmu.convert_to_weights(indices_tuple, labels)], a collaborator outside
    this file: the weights it computes from the values of its arguments.  The
    development covers the calls on which the collaborator returns; what it
    raises itself, before anything else is computed, is not part of it. *)
Variable convert_to_weights : indices_tuple_t -> list Z -> list R.

(** [WeightRegularizerMixin.regularization_loss(weights)], a collaborator
    outside this file: the scalar penalty, 0 when no regulariser is set. *)
Variable regularization_loss : matrix -> R.

Definition lmu_convert_to_weights (indices_tuple : indices_tuple_t) (labels : ref) : M ref :=
  l <- as_labels labels ;;
  alloc (Vec (convert_to_weights indices_tuple l)).

Definition self_regularization_loss (weights : ref) : M ref :=
  A <- as_mat weights ;;
  alloc (Scalar (regularization_loss A)).

(** [NormalizedSoftmaxLoss(temperature, embedding_size, num_classes)]: the
    attributes are stored as given.  [sample] stands for the draws of
    [torch.randn].  The keyword arguments go to the base classes, whose part
    of the module is seen here through [regularization_loss] only.  The third
    attribute, [cross_entropy], is [CrossEntropyLoss(reduction='none')]: it
    has no state, and a call through it is [torch.cross_entropy_none]. *)
Definition __init__ (sample : nat -> nat -> R)
    (temperature : R) (embedding_size num_classes : Z) : M ref :=
  data <- torch.randn sample embedding_size num_classes ;;
  w <- torch.nn_Parameter data ;;
  alloc (Obj {| temperature := temperature; W := w |}).

Definition getattr_W (self : ref) : M ref :=
  o <- as_obj self ;; ret (W o).

Definition getattr_temperature (self : ref) : M R :=
  o <- as_obj self ;; ret (temperature o).

(** [compute_loss(self, embeddings, labels, indices_tuple)], statement by
    statement; the result is a reference to the scalar loss. *)
Definition compute_loss (self embeddings labels : ref)
    (indices_tuple : indices_tuple_t) : M ref :=
  miner_weights <- lmu_convert_to_weights indices_tuple labels ;;
  self_W <- getattr_W self ;;
  normalized_W <- torch.normalize_p2_dim0 self_W ;;
  product <- torch.matmul embeddings normalized_W ;;
  self_temperature <- getattr_temperature self ;;
  exponent <- torch.div product self_temperature ;;
  unweighted_loss <- torch.cross_entropy_none exponent labels ;;
  weighted <- torch.mul unweighted_loss miner_weights ;;
  mean <- torch.mean weighted ;;
  self_W' <- getattr_W self ;;
  W_t <- torch.t self_W' ;;
  reg <- self_regularization_loss W_t ;;
  torch.add mean reg.

(** *** Observing a call *)

(** What a caller sees of a call: the exception or the number in the returned
    tensor, and whether the computation stayed within the reals. *)
Definition call (self embeddings labels : ref) (indices_tuple : indices_tuple_t)
    (m : machine) : (exn + R) * bool :=
  let (r, m') := (res <- compute_loss self embeddings labels indices_tuple ;;
                  as_scalar res) m in
  (r, finite m').

(** The heap a call starts from when the module holds [Wm] and [t] and the
    caller passes [E] and [L]: references 0 (the parameter), 1 (the module),
    2 (embeddings), 3 (labels). *)
Definition initial (t : R) (Wm E : matrix) (L : list Z) : machine :=
  {| heap := [Mat Wm; Obj {| temperature := t; W := 0%nat |}; Mat E; Labels L];
     finite := true |}.

Definition run_compute_loss (t : R) (Wm E : matrix) (L : list Z)
    (indices_tuple : indices_tuple_t) : (exn + R) * bool :=
  call 1%nat 2%nat 3%nat indices_tuple (initial t Wm E L).

(** The objects a call allocated, in the order of the statements:
    [miner_weights; normalized_W; product; exponent; unweighted_loss;
     weighted; mean; W_t; reg; result]. *)
Definition locals (t : R) (Wm E : matrix) (L : list Z)
    (indices_tuple : indices_tuple_t) : list value :=
  skipn 4 (heap (snd (compute_loss 1%nat 2%nat 3%nat indices_tuple (initial t Wm E L)))).

Definition local_normalized_W t Wm E L idx : option value := nth_error (locals t Wm E L idx) 1.
Definition local_exponent t Wm E L idx : option value := nth_error (locals t Wm E L idx) 3.
Definition local_unweighted_loss t Wm E L idx : option value := nth_error (locals t Wm E L idx) 4.

(** *** What a call computes, in closed form *)

(** The value of [exponent]. *)
Definition logits (t : R) (Wm E : matrix) : matrix :=
  div_scalar (mmul E (normalize_dim0 Wm)) t.

(** The exception or the number a call ends with, and whether the call
    stayed within the reals. *)
Definition outcome (t : R) (Wm E : matrix) (L : list Z)
    (indices_tuple : indices_tuple_t) : (exn + R) * bool :=
  if negb (cols E =? rows Wm)%nat then (inl RuntimeError, true) else
  let fin := div_finite (mmul E (normalize_dim0 Wm)) t in
  if negb (rows E =? length L)%nat then (inl ValueError, fin) else
  if negb (targets_ok (cols Wm) L) then (inl IndexError, fin) else
  match bmul (nll_batch (logits t Wm E) L) (convert_to_weights indices_tuple L) with
  | None => (inl RuntimeError, fin)
  | Some p =>
      (inr (vmean p + regularization_loss (transpose Wm)), fin && mean_finite p)
  end.

(** The objects a call allocates, up to the statement that raises. *)
Definition trace (t : R) (Wm E : matrix) (L : list Z)
    (indices_tuple : indices_tuple_t) : list value :=
  let w := convert_to_weights indices_tuple L in
  [Vec w; Mat (normalize_dim0 Wm)] ++
  if (cols E =? rows Wm)%nat then
    [Mat (mmul E (normalize_dim0 Wm)); Mat (logits t Wm E)] ++
    if (rows E =? length L)%nat && targets_ok (cols Wm) L then
      [Vec (nll_batch (logits t Wm E) L)] ++
      match bmul (nll_batch (logits t Wm E) L) w with
      | Some p =>
          [Vec p; Scalar (vmean p); Mat (transpose Wm);
           Scalar (regularization_loss (transpose Wm));
           Scalar (vmean p + regularization_loss (transpose Wm))]
      | None => []
      end
    else []
  else [].

End Loss.

Arguments call {indices_tuple_t}.
Arguments compute_loss {indices_tuple_t}.
Arguments run_compute_loss {indices_tuple_t}.
Arguments locals {indices_tuple_t}.
Arguments local_normalized_W {indices_tuple_t}.
Arguments local_exponent {indices_tuple_t}.
Arguments local_unweighted_loss {indices_tuple_t}.
Arguments outcome {indices_tuple_t}.
Arguments trace {indices_tuple_t}.
Arguments lmu_convert_to_weights {indices_tuple_t}.

(** ** Notions the statements use *)

(** [r] holds [v] in [m]. *)
Definition resolves (m : machine) (r : ref) (v : value) : Prop :=
  nth_error (heap m) r = Some v.

(** A computation only ever appends to the heap. *)
Definition grows {A : Type} (c : M A) : Prop :=
  forall m, exists l, heap (snd (c m)) = heap m ++ l.

(** The exception a call ended with, if any. *)
Definition raised (o : (exn + R) * bool) : option exn :=
  match fst o with inl e => Some e | inr _ => None end.

(** A bound on the absolute value of every entry of [A]. *)
Definition entry_bound (A : matrix) : R :=
  Rsum (rows A) (fun i => Rsum (cols A) (fun j => Rabs (entry A i j))).

(** Every label names one of the [C] classes. *)
Definition class_labels (C : nat) (L : list Z) : Prop :=
  Forall (fun y => (0 <= y < Z.of_nat C)%Z) L.

(** Cosine of the angle between row [i] of [E] and column [j] of [Wm]. *)
Definition cosine (E : matrix) (i : nat) (Wm : matrix) (j : nat) : R :=
  dot (cols E) E i Wm j / (row_norm E i * col_norm Wm j).

(** [p] permutes the classes [0 .. C-1]. *)
Definition permutes (C : nat) (p : nat -> nat) : Prop :=
  (forall j, (j < C)%nat -> (p j < C)%nat) /\
  (forall i j, (i < C)%nat -> (j < C)%nat -> p i = p j -> i = j).

(** [Wp] is [Wm] with its columns permuted by [p]: class [j] moved to [p j]. *)
Definition permuted_cols (p : nat -> nat) (Wm Wp : matrix) : Prop :=
  rows Wp = rows Wm /\ cols Wp = cols Wm /\
  forall k j, (j < cols Wm)%nat -> entry Wp k (p j) = entry Wm k j.

Definition relabel (p : nat -> nat) (L : list Z) : list Z :=
  map (fun y => Z.of_nat (p (Z.to_nat y))) L.

(** The weights of a batch in which no sample was singled out. *)
Definition ones (L : list Z) : list R := map (fun _ => 1) L.

(** *** The reference loss

    Written from the words of the specification, with a summation and norms
    of its own: cosine-similarity logits (cosine between embedding and
    prototype, scaled by the norm of the embedding) scaled by 1/temperature,
    the textbook cross-entropy (minus the logarithm of the softmax probability
    of the labelled class), and its plain mean over the batch. *)

Fixpoint sigma (n : nat) (f : nat -> R) : R :=
  match n with
  | O => 0
  | S k => sigma k f + f k
  end.

Definition l2_norm (n : nat) (v : nat -> R) : R :=
  sqrt (sigma n (fun d => v d * v d)).

(** Embedding of sample [i]; prototype of class [j]. *)
Definition embedding (E : matrix) (i : nat) : nat -> R := fun d => entry E i d.
Definition prototype (Wm : matrix) (j : nat) : nat -> R := fun d => entry Wm d j.

Definition cosine_similarity (n : nat) (u v : nat -> R) : R :=
  sigma n (fun d => u d * v d) / (l2_norm n u * l2_norm n v).

Definition reference_logit (t : R) (Wm E : matrix) (i j : nat) : R :=
  cosine_similarity (rows Wm) (embedding E i) (prototype Wm j)
  * l2_norm (rows Wm) (embedding E i) * (1 / t).

Definition reference_cross_entropy (C : nat) (z : nat -> R) (y : Z) : R :=
  - ln (exp (z (Z.to_nat y)) / sigma C (fun k => exp (z k))).

Definition reference_loss (t : R) (Wm E : matrix) (L : list Z) : R :=
  sigma (length L)
    (fun i => reference_cross_entropy (cols Wm) (reference_logit t Wm E i) (nth i L 0%Z))
  / INR (length L).

(** ** Small concrete inputs *)

(** The tensor with the given rows. *)
Definition of_rows (l : list (list R)) : matrix :=
  {| rows := length l; cols := length (hd [] l);
     entry := fun i j => nth j (nth i l []) 0 |}.

(** One embedding of dimension 1. *)
Definition E_1 : matrix := of_rows [[1]].

(** Two classes in dimension 1. *)
Definition W_11 : matrix := of_rows [[1; 1]].
Definition W_12 : matrix := of_rows [[1; 2]].
Definition W_21 : matrix := of_rows [[2; 1]].
Definition W_01 : matrix := of_rows [[0; 1]].

(** One class whose prototype is the zero vector. *)
Definition W_0 : matrix := of_rows [[0]].

(** Exchange of the classes 0 and 1. *)
Definition swap (j : nat) : nat := (1 - j)%nat.

(** No miner: every sample weighs 1. *)
Definition no_miner (indices_tuple : unit) (L : list Z) : list R := ones L.

(** No regulariser set: the penalty is 0. *)
Definition no_regularizer (weights : matrix) : R := 0.

(** A regulariser that penalises the first entry of the first row only. *)
Definition first_entry (weights : matrix) : R := entry weights 0 0.

(** The machine before anything was allocated. *)
Definition empty_machine : machine := {| heap := []; finite := true |}.

(** ** Further notions *)

(** Two one-dimensional shapes that [*] accepts. *)
Definition broadcastable (n m : nat) : bool :=
  (n =? m)%nat || (n =? 1)%nat || (m =? 1)%nat.

(** Every entry of [A] multiplied by [c]. *)
Definition scale_matrix (c : R) (A : matrix) : matrix :=
  {| rows := rows A; cols := cols A; entry := fun i j => c * entry A i j |}.

(** [Ws] is [Wm] with column [j] multiplied by [c j]. *)
Definition scaled_cols (c : nat -> R) (Wm Ws : matrix) : Prop :=
  rows Ws = rows Wm /\ cols Ws = cols Wm /\
  forall k j, (k < rows Wm)%nat -> (j < cols Wm)%nat ->
    entry Ws k j = c j * entry Wm k j.

(** A sample is masked when its label is ignored or its weight is zero. *)
Definition masked (y : Z) (w : R) : Prop := y = ignore_index \/ w = 0.

(** No embedding at all, of dimension 1. *)
Definition E_none : matrix := {| rows := 0; cols := 1; entry := fun _ _ => 0 |}.

(** Two embeddings of dimension 1. *)
Definition E_2 : matrix := of_rows [[1]; [2]].

(** One class in dimension 1. *)
Definition W_1 : matrix := of_rows [[1]].

(** A miner that returns a single weight, whatever the batch. *)
Definition one_weight (indices_tuple : unit) (L : list Z) : list R := [2].

(** A miner that weighs every sample 0. *)
Definition zero_miner (indices_tuple : unit) (L : list Z) : list R :=
  map (fun _ => 0) L.

(** One zero embedding of dimension 1. *)
Definition E_0 : matrix := of_rows [[0]].

(** [W_11] with its columns multiplied by 2 and 3. *)
Definition W_23 : matrix := of_rows [[2; 3]].
Definition factors_23 (j : nat) : R := match j with O => 2 | _ => 3 end.

(** [Es] is [E] with its rows in the order [s]: row [i] of [Es] is row [s i]
    of [E]. *)
Definition permuted_rows (s : nat -> nat) (E Es : matrix) : Prop :=
  rows Es = rows E /\ cols Es = cols E /\
  forall i k, (i < rows E)%nat -> entry Es i k = entry E (s i) k.

(** A one-dimensional tensor in the order [s]. *)
Definition permute_list {A : Type} (s : nat -> nat) (d : A) (l : list A) : list A :=
  map (fun i => nth (s i) l d) (seq 0 (length l)).

(** Exchange of the samples 0 and 1. *)
Definition E_2_swapped : matrix := of_rows [[2]; [1]].

(** A miner that weighs sample [i] by the label it carries plus one. *)
Definition label_miner (indices_tuple : unit) (L : list Z) : list R :=
  map (fun y => IZR y + 1) L.

(** Two opposite prototypes in dimension 1. *)
Definition W_pm : matrix := of_rows [[1; -1]].

(** A regulariser that reads the entry in row 1, column 0. *)
Definition entry_1_0 (weights : matrix) : R := entry weights 1 0.

(** Two classes in dimension 1, the first prototype shorter than [eps]. *)
Definition W_short : matrix := of_rows [[5e-13; 1]].

(** Two opposite prototypes of different lengths in dimension 1. *)
Definition W_2m3 : matrix := of_rows [[2; -3]].

(** ** The same computation on binary64 numbers

    The tensor operations of a call on machine numbers, for batches of the
    right shapes.  [exp] and [log] of the mathematical library are inputs. *)

Module Binary64.

Import PrimFloat.
Local Open Scope float_scope.

(** The binary64 number closest to 1e-12. *)
Definition eps : float := 0x1.19799812dea11p-40.

(** The larger of two numbers, nan if one of them is. *)
Definition fmax (a b : float) : float :=
  if is_nan a then a else if is_nan b then b else if ltb a b then b else a.

Definition sum (v : list float) : float := fold_left add v 0.

Definition column (A : list (list float)) (j : nat) : list float :=
  map (fun row => nth j row 0) A.

Definition norm (v : list float) : float := sqrt (sum (map (fun x => x * x) v)).

Definition normalize_dim0 (A : list (list float)) : list (list float) :=
  map (fun row =>
         map (fun jx => snd jx / fmax (norm (column A (fst jx))) eps)
             (combine (seq 0 (length row)) row))
      A.

Definition dot (u v : list float) : float :=
  sum (map (fun p => fst p * snd p) (combine u v)).

Definition matmul (A B : list (list float)) : list (list float) :=
  map (fun row => map (fun j => dot row (column B j)) (seq 0 (length (hd [] B)))) A.

Definition div_scalar (A : list (list float)) (t : float) : list (list float) :=
  map (map (fun x => x / t)) A.

Definition all_finite (A : list (list float)) : bool :=
  forallb (forallb is_finite) A.

Section Libm.

Variables exp log : float -> float.

(** [log_softmax] of one row, the way the library computes it: shifted by the
    maximum of the row. *)
Definition log_softmax (x : list float) : list float :=
  let m := fold_left fmax x neg_infinity in
  let s := sum (map (fun v => exp (v - m)) x) in
  map (fun v => (v - m) - log s) x.

Definition cross_entropy_none (X : list (list float)) (labels : list nat) : list float :=
  map (fun p => - nth (snd p) (log_softmax (fst p)) nan) (combine X labels).

Definition mean (v : list float) : float := sum v / sum (map (fun _ => 1) v).

Definition compute_loss (t : float) (W E : list (list float)) (labels : list nat)
    (miner_weights : list float) (regularization : float) : float :=
  let normalized_W := normalize_dim0 W in
  let exponent := div_scalar (matmul E normalized_W) t in
  let unweighted_loss := cross_entropy_none exponent labels in
  mean (map (fun p => fst p * snd p) (combine unweighted_loss miner_weights))
  + regularization.

End Libm.

Definition W_pm : list (list float) := [[1; -1]].



(** Two classes in dimension 1, the first prototype the zero vector. *)
Definition W_01 : list (list float) := [[0; 1]].

End Binary64.

(** * Properties *)

(** ** Running the monad *)

Lemma bind_inr {A B : Type} (c : M A) (k : A -> M B) m a m' :
  c m = (inr a, m') -> bind c k m = k a m'.
Proof. intros H. unfold bind. now rewrite H. Qed.

Lemma bind_inl {A B : Type} (c : M A) (k : A -> M B) m e m' :
  c m = (inl e, m') -> bind c k m = (inl e, m').
Proof. intros H. unfold bind. now rewrite H. Qed.

Lemma bind_eq {A B : Type} (c : M A) (k : A -> M B) m :
  bind c k m = match c m with
               | (inl e, m') => (inl e, m')
               | (inr a, m') => k a m'
               end.
Proof. reflexivity. Qed.

Lemma resolves_push_old m r v w : resolves m r v -> resolves (push m w) r v.
Proof.
  unfold resolves, push. simpl. intros H.
  rewrite nth_error_app1; [exact H|]. apply nth_error_Some. congruence.
Qed.

Lemma resolves_push_new m w : resolves (push m w) (length (heap m)) w.
Proof.
  unfold resolves, push. simpl.
  rewrite nth_error_app2 by lia. now rewrite Nat.sub_diag.
Qed.

Lemma resolves_mark m b r v : resolves m r v -> resolves (mark m b) r v.
Proof. exact (fun H => H). Qed.

Lemma load_run m r v : resolves m r v -> load r m = (inr v, m).
Proof. unfold resolves, load. now intros ->. Qed.

Lemma as_mat_run m r A : resolves m r (Mat A) -> as_mat r m = (inr A, m).
Proof. intros H. unfold as_mat. now rewrite (bind_inr _ _ _ _ _ (load_run _ _ _ H)). Qed.

Lemma as_vec_run m r u : resolves m r (Vec u) -> as_vec r m = (inr u, m).
Proof. intros H. unfold as_vec. now rewrite (bind_inr _ _ _ _ _ (load_run _ _ _ H)). Qed.

Lemma as_labels_run m r l : resolves m r (Labels l) -> as_labels r m = (inr l, m).
Proof. intros H. unfold as_labels. now rewrite (bind_inr _ _ _ _ _ (load_run _ _ _ H)). Qed.

Lemma as_scalar_run m r x : resolves m r (Scalar x) -> as_scalar r m = (inr x, m).
Proof. intros H. unfold as_scalar. now rewrite (bind_inr _ _ _ _ _ (load_run _ _ _ H)). Qed.

Lemma as_obj_run m r o : resolves m r (Obj o) -> as_obj r m = (inr o, m).
Proof. intros H. unfold as_obj. now rewrite (bind_inr _ _ _ _ _ (load_run _ _ _ H)). Qed.

(** ** One statement at a time *)

Lemma denominator_pos A j : 0 < denominator A j.
Proof.
  unfold denominator. pose proof (Rmax_r (col_norm A j) eps) as H.
  unfold eps in *. lra.
Qed.

(** Thanks to the clamp, normalising never divides by zero. *)
Lemma divisors_nonzero_true A : divisors_nonzero A = true.
Proof.
  unfold divisors_nonzero. apply forallb_forall. intros j _.
  pose proof (denominator_pos A j).
  destruct (Req_dec_T (denominator A j) 0); [lra | reflexivity].
Qed.

Lemma normalize_run m a A :
  resolves m a (Mat A) ->
  torch.normalize_p2_dim0 a m =
  (inr (length (heap (mark m (divisors_nonzero A)))),
   push (mark m (divisors_nonzero A)) (Mat (normalize_dim0 A))).
Proof.
  intros H. unfold torch.normalize_p2_dim0.
  now rewrite (bind_inr _ _ _ _ _ (as_mat_run _ _ _ H)).
Qed.

Lemma matmul_run m a b A B :
  resolves m a (Mat A) -> resolves m b (Mat B) ->
  torch.matmul a b m =
  if (cols A =? rows B)%nat
  then (inr (length (heap m)), push m (Mat (mmul A B)))
  else (inl RuntimeError, m).
Proof.
  intros Ha Hb. unfold torch.matmul.
  rewrite (bind_inr _ _ _ _ _ (as_mat_run _ _ _ Ha)).
  rewrite (bind_inr _ _ _ _ _ (as_mat_run _ _ _ Hb)).
  now destruct (cols A =? rows B)%nat.
Qed.

Lemma div_run m a A t :
  resolves m a (Mat A) ->
  torch.div a t m =
  (inr (length (heap (mark m (div_finite A t)))),
   push (mark m (div_finite A t)) (Mat (div_scalar A t))).
Proof.
  intros H. unfold torch.div.
  now rewrite (bind_inr _ _ _ _ _ (as_mat_run _ _ _ H)).
Qed.

Lemma cross_entropy_run m a b x y :
  resolves m a (Mat x) -> resolves m b (Labels y) ->
  torch.cross_entropy_none a b m =
  if negb (rows x =? length y)%nat then (inl ValueError, m)
  else if negb (targets_ok (cols x) y) then (inl IndexError, m)
  else (inr (length (heap m)), push m (Vec (nll_batch x y))).
Proof.
  intros Ha Hb. unfold torch.cross_entropy_none.
  rewrite (bind_inr _ _ _ _ _ (as_mat_run _ _ _ Ha)).
  rewrite (bind_inr _ _ _ _ _ (as_labels_run _ _ _ Hb)).
  destruct (rows x =? length y)%nat; simpl; [|reflexivity].
  now destruct (targets_ok (cols x) y).
Qed.

Lemma mul_run m a b u v :
  resolves m a (Vec u) -> resolves m b (Vec v) ->
  torch.mul a b m =
  match bmul u v with
  | Some p => (inr (length (heap m)), push m (Vec p))
  | None => (inl RuntimeError, m)
  end.
Proof.
  intros Ha Hb. unfold torch.mul.
  rewrite (bind_inr _ _ _ _ _ (as_vec_run _ _ _ Ha)).
  rewrite (bind_inr _ _ _ _ _ (as_vec_run _ _ _ Hb)).
  now destruct (bmul u v).
Qed.

Lemma mean_run m a u :
  resolves m a (Vec u) ->
  torch.mean a m =
  (inr (length (heap (mark m (mean_finite u)))),
   push (mark m (mean_finite u)) (Scalar (vmean u))).
Proof.
  intros H. unfold torch.mean.
  now rewrite (bind_inr _ _ _ _ _ (as_vec_run _ _ _ H)).
Qed.

Lemma t_run m a A :
  resolves m a (Mat A) ->
  torch.t a m = (inr (length (heap m)), push m (Mat (transpose A))).
Proof.
  intros H. unfold torch.t.
  now rewrite (bind_inr _ _ _ _ _ (as_mat_run _ _ _ H)).
Qed.

Lemma add_run m a b x y :
  resolves m a (Scalar x) -> resolves m b (Scalar y) ->
  torch.add a b m = (inr (length (heap m)), push m (Scalar (x + y))).
Proof.
  intros Ha Hb. unfold torch.add.
  rewrite (bind_inr _ _ _ _ _ (as_scalar_run _ _ _ Ha)).
  now rewrite (bind_inr _ _ _ _ _ (as_scalar_run _ _ _ Hb)).
Qed.

Section Exec.

Context {indices_tuple_t : Type}.
Variable convert_to_weights : indices_tuple_t -> list Z -> list R.
Variable regularization_loss : matrix -> R.

Lemma convert_to_weights_run m idx lab L :
  resolves m lab (Labels L) ->
  lmu_convert_to_weights convert_to_weights idx lab m =
  (inr (length (heap m)), push m (Vec (convert_to_weights idx L))).
Proof.
  intros H. unfold lmu_convert_to_weights.
  now rewrite (bind_inr _ _ _ _ _ (as_labels_run _ _ _ H)).
Qed.

Lemma regularization_loss_run m a A :
  resolves m a (Mat A) ->
  self_regularization_loss regularization_loss a m =
  (inr (length (heap m)), push m (Scalar (regularization_loss A))).
Proof.
  intros H. unfold self_regularization_loss.
  now rewrite (bind_inr _ _ _ _ _ (as_mat_run _ _ _ H)).
Qed.

Lemma getattr_W_run m self o :
  resolves m self (Obj o) -> getattr_W self m = (inr (W o), m).
Proof.
  intros H. unfold getattr_W.
  now rewrite (bind_inr _ _ _ _ _ (as_obj_run _ _ _ H)).
Qed.

Lemma getattr_temperature_run m self o :
  resolves m self (Obj o) -> getattr_temperature self m = (inr (temperature o), m).
Proof.
  intros H. unfold getattr_temperature.
  now rewrite (bind_inr _ _ _ _ _ (as_obj_run _ _ _ H)).
Qed.

Ltac heap_solve :=
  repeat match goal with
    | |- resolves (push ?m _) (length (heap ?m)) _ => apply resolves_push_new
    | |- resolves (push _ _) _ _ => apply resolves_push_old
    | |- resolves (mark _ _) _ _ => apply resolves_mark
    | |- resolves _ _ _ => eassumption
    end.
Ltac step lem := erewrite bind_inr by (eapply lem; heap_solve); cbv beta.
Ltac close_machine :=
  unfold push, mark; cbn [heap finite fst snd andb app];
  apply (f_equal2 pair);
  [ try reflexivity
  | apply (f_equal2 mkMachine);
    [ repeat rewrite <- app_assoc; reflexivity
    | rewrite ?divisors_nonzero_true, ?andb_true_r, ?andb_assoc; reflexivity ] ].

(** A call on a heap where the four references hold what they should is
    described by [outcome] and [trace]. *)
Lemma compute_loss_exec m self emb lab idx o Wm E L :
  resolves m self (Obj o) -> resolves m (W o) (Mat Wm) ->
  resolves m emb (Mat E) -> resolves m lab (Labels L) ->
  compute_loss convert_to_weights regularization_loss self emb lab idx m =
  (match fst (outcome convert_to_weights regularization_loss (temperature o) Wm E L idx) with
   | inl e => inl e
   | inr _ => inr (length (heap m) + 9)%nat
   end,
   {| heap := heap m ++ trace convert_to_weights regularization_loss (temperature o) Wm E L idx;
      finite := finite m &&
                snd (outcome convert_to_weights regularization_loss (temperature o) Wm E L idx) |}).
Proof.
  intros Hs Hw He Hl. unfold compute_loss, outcome, trace.
  step convert_to_weights_run.
  step getattr_W_run.
  step normalize_run.
  rewrite bind_eq. erewrite matmul_run; [ | heap_solve | heap_solve ].
  change (rows (normalize_dim0 Wm)) with (rows Wm).
  destruct (cols E =? rows Wm)%nat; simpl negb; cbv iota; [|close_machine].
  step getattr_temperature_run.
  step div_run.
  fold (logits (temperature o) Wm E).
  rewrite bind_eq. erewrite cross_entropy_run; [ | heap_solve | heap_solve ].
  change (rows (logits (temperature o) Wm E)) with (rows E).
  change (cols (logits (temperature o) Wm E)) with (cols Wm).
  destruct (rows E =? length L)%nat; simpl negb; cbv iota; [|close_machine].
  destruct (targets_ok (cols Wm) L); simpl negb; cbv iota; [|close_machine].
  rewrite bind_eq. erewrite mul_run; [ | heap_solve | heap_solve ].
  destruct (bmul _ _) as [p|]; [|close_machine].
  step mean_run.
  step getattr_W_run.
  step t_run.
  step regularization_loss_run.
  erewrite add_run; [ | heap_solve | heap_solve ].
  close_machine.
  f_equal. rewrite !length_app. simpl. lia.
Qed.

End Exec.

(** ** Sums *)

Lemma vsum_app u v : vsum (u ++ v) = vsum u + vsum v.
Proof. induction u as [|x u IH]; simpl; [lra | rewrite IH; lra]. Qed.

Lemma vsum_perm u v : Permutation u v -> vsum u = vsum v.
Proof. induction 1; simpl; lra. Qed.

Lemma vsum_map_ext {A : Type} (f g : A -> R) l :
  (forall a, In a l -> f a = g a) -> vsum (map f l) = vsum (map g l).
Proof.
  induction l as [|a l IH]; simpl; intros H; [reflexivity|].
  rewrite (H a) by now left. rewrite IH; [reflexivity|]. intros; apply H; now right.
Qed.

Lemma vsum_map_le {A : Type} (f g : A -> R) l :
  (forall a, In a l -> f a <= g a) -> vsum (map f l) <= vsum (map g l).
Proof.
  induction l as [|a l IH]; simpl; intros H; [lra|].
  assert (f a <= g a) by (apply H; now left).
  assert (vsum (map f l) <= vsum (map g l)) by (apply IH; intros; apply H; now right).
  lra.
Qed.

Lemma vsum_map_scal {A : Type} (c : R) (f : A -> R) l :
  vsum (map (fun a => c * f a) l) = c * vsum (map f l).
Proof. induction l as [|a l IH]; simpl; [lra | rewrite IH; lra]. Qed.

Lemma vsum_map_const {A : Type} (c : R) (l : list A) :
  vsum (map (fun _ => c) l) = INR (length l) * c.
Proof.
  induction l as [|a l IH]; [simpl; lra|].
  change (vsum (map (fun _ => c) (a :: l))) with (c + vsum (map (fun _ => c) l)).
  rewrite IH. change (length (a :: l)) with (S (length l)). rewrite S_INR. lra.
Qed.

Lemma Rsum_ext n f g :
  (forall k, (k < n)%nat -> f k = g k) -> Rsum n f = Rsum n g.
Proof.
  intros H. apply vsum_map_ext. intros k Hk. apply in_seq in Hk. apply H. lia.
Qed.

Lemma Rsum_le n f g :
  (forall k, (k < n)%nat -> f k <= g k) -> Rsum n f <= Rsum n g.
Proof.
  intros H. apply vsum_map_le. intros k Hk. apply in_seq in Hk. apply H. lia.
Qed.

Lemma Rsum_scal n c f : Rsum n (fun k => c * f k) = c * Rsum n f.
Proof. apply vsum_map_scal. Qed.

Lemma Rsum_const n c : Rsum n (fun _ => c) = INR n * c.
Proof. unfold Rsum. now rewrite vsum_map_const, length_seq. Qed.

Lemma Rsum_S n f : Rsum (S n) f = Rsum n f + f n.
Proof.
  unfold Rsum. rewrite seq_S, map_app, vsum_app. simpl. lra.
Qed.

Lemma Rsum_nonneg n f : (forall k, (k < n)%nat -> 0 <= f k) -> 0 <= Rsum n f.
Proof.
  intros H. replace 0 with (INR n * 0) by lra. rewrite <- Rsum_const.
  now apply Rsum_le.
Qed.

Lemma Rsum_term_le n f j :
  (forall k, (k < n)%nat -> 0 <= f k) -> (j < n)%nat -> f j <= Rsum n f.
Proof.
  induction n as [|n IH]; intros Hf Hj; [lia|].
  rewrite Rsum_S.
  assert (0 <= Rsum n f) by (apply Rsum_nonneg; intros; apply Hf; lia).
  assert (0 <= f n) by (apply Hf; lia).
  destruct (Nat.eq_dec j n) as [->|Hne]; [lra|].
  assert (f j <= Rsum n f) by (apply IH; [intros; apply Hf; lia | lia]).
  lra.
Qed.

Lemma Rsum_zero_terms n f :
  (forall k, (k < n)%nat -> 0 <= f k) -> Rsum n f = 0 ->
  forall k, (k < n)%nat -> f k = 0.
Proof.
  intros Hf H0 k Hk.
  pose proof (Rsum_term_le n f k Hf Hk). pose proof (Hf k Hk). lra.
Qed.

Lemma Rsum_pos n f : (0 < n)%nat -> (forall k, (k < n)%nat -> 0 < f k) -> 0 < Rsum n f.
Proof.
  intros Hn Hf.
  assert (f 0%nat <= Rsum n f).
  { apply Rsum_term_le; [|exact Hn]. intros k Hk. apply Rlt_le. now apply Hf. }
  pose proof (Hf 0%nat Hn). lra.
Qed.

(** A permutation of the indices does not change a sum. *)
Lemma permutes_seq C p : permutes C p -> Permutation (map p (seq 0 C)) (seq 0 C).
Proof.
  intros [Hran Hinj].
  apply NoDup_Permutation_bis.
  - assert (G : forall l, NoDup l -> (forall x, In x l -> (x < C)%nat) -> NoDup (map p l)).
    { induction l as [|a l IH]; simpl; intros Hnd Hl; [constructor|].
      inversion Hnd as [|? ? Hna Hnd']; subst. constructor.
      - intros Hin. apply in_map_iff in Hin. destruct Hin as [b [Hb Hbl]].
        apply Hinj in Hb; [subst; contradiction | apply Hl; now right | apply Hl; now left].
      - apply IH; [exact Hnd' | intros; apply Hl; now right]. }
    apply G; [apply seq_NoDup | intros x Hx; apply in_seq in Hx; lia].
  - now rewrite length_map.
  - intros x Hx. apply in_map_iff in Hx. destruct Hx as [j [<- Hj]].
    apply in_seq in Hj. apply in_seq. specialize (Hran j). lia.
Qed.

Lemma Rsum_permutes C p f : permutes C p -> Rsum C (fun k => f (p k)) = Rsum C f.
Proof.
  intros Hp. unfold Rsum.
  rewrite <- (map_map p f). apply vsum_perm, Permutation_map, permutes_seq, Hp.
Qed.

Lemma Rsum_one f : Rsum 1 f = f 0%nat.
Proof. unfold Rsum. simpl. lra. Qed.

Lemma vsum_Rsum_nth u : vsum u = Rsum (length u) (fun i => nth i u 0).
Proof.
  induction u as [|x u IH] using rev_ind; [reflexivity|].
  rewrite vsum_app, length_app. simpl length. rewrite Nat.add_1_r, Rsum_S.
  rewrite app_nth2, Nat.sub_diag by lia. simpl. rewrite IH.
  rewrite (Rsum_ext (length u) (fun i => nth i (u ++ [x]) 0) (fun i => nth i u 0)).
  - lra.
  - intros k Hk. now rewrite app_nth1.
Qed.

Lemma vmul_nth u v i :
  length u = length v -> nth i (vmul u v) 0 = nth i u 0 * nth i v 0.
Proof.
  revert v i. induction u as [|x u IH]; intros [|y v] i H; simpl in H; try lia.
  - destruct i; simpl; lra.
  - destruct i as [|i]; simpl; [reflexivity | apply IH; lia].
Qed.

(** The summation of the reference is the summation of the code. *)
Lemma sigma_Rsum n f : sigma n f = Rsum n f.
Proof.
  induction n as [|n IH]; [reflexivity|].
  simpl. now rewrite IH, Rsum_S.
Qed.

Lemma sigma_ext n f g :
  (forall k, (k < n)%nat -> f k = g k) -> sigma n f = sigma n g.
Proof. intros H. rewrite !sigma_Rsum. now apply Rsum_ext. Qed.

(** ** Normalisation of the columns *)

Lemma eps_pos : 0 < eps.
Proof. unfold eps. lra. Qed.

Lemma col_norm_nonneg A j : 0 <= col_norm A j.
Proof. apply sqrt_pos. Qed.

Lemma clamp_pos A j : 0 < Rmax (col_norm A j) eps.
Proof. pose proof eps_pos. pose proof (Rmax_r (col_norm A j) eps). lra. Qed.

Lemma sum_squares_nonneg n (f : nat -> R) : 0 <= Rsum n (fun i => f i * f i).
Proof. apply Rsum_nonneg. intros. nra. Qed.

(** The norm of a normalised column is the norm of the column over the clamped
    norm. *)
Lemma col_norm_normalize A j :
  col_norm (normalize_dim0 A) j = col_norm A j / Rmax (col_norm A j) eps.
Proof.
  pose proof (clamp_pos A j) as Hd. set (d := Rmax (col_norm A j) eps) in *.
  unfold col_norm at 1. cbn [rows entry normalize_dim0]. unfold denominator. fold d.
  rewrite (Rsum_ext _ _ (fun i => (/ d * / d) * (entry A i j * entry A i j))).
  2:{ intros. field. lra. }
  rewrite Rsum_scal, sqrt_mult_alt by (apply Rlt_le, Rmult_lt_0_compat; now apply Rinv_0_lt_compat).
  rewrite sqrt_square by (apply Rlt_le; now apply Rinv_0_lt_compat).
  unfold col_norm, Rdiv. lra.
Qed.

(** A column whose norm reaches [eps] is rescaled to norm 1. *)
Lemma normalize_unit A j : eps <= col_norm A j -> col_norm (normalize_dim0 A) j = 1.
Proof.
  intros H. rewrite col_norm_normalize, Rmax_left by exact H.
  pose proof eps_pos. field. lra.
Qed.

(** A column of smaller norm is divided by [eps]. *)
Lemma normalize_small A i j :
  col_norm A j <= eps -> entry (normalize_dim0 A) i j = entry A i j / eps.
Proof. intros H. cbn [entry normalize_dim0]; unfold denominator. now rewrite Rmax_right. Qed.

Lemma col_norm_zero A j :
  (forall i, (i < rows A)%nat -> entry A i j = 0) -> col_norm A j = 0.
Proof.
  intros H. unfold col_norm.
  rewrite (Rsum_ext _ _ (fun _ => 0)) by (intros i Hi; rewrite (H i Hi); lra).
  rewrite Rsum_const, Rmult_0_r. apply sqrt_0.
Qed.


Lemma row_norm_zero_entries A i :
  row_norm A i = 0 -> forall k, (k < cols A)%nat -> entry A i k = 0.
Proof.
  intros H k Hk. unfold row_norm in H.
  apply sqrt_eq_0 in H; [|apply sum_squares_nonneg].
  pose proof (Rsum_zero_terms _ _ (fun k _ => Rle_0_sqr (entry A i k)) H k Hk) as Hz.
  unfold Rsqr in Hz. nra.
Qed.

(** ** Logits *)

Lemma logits_entry t Wm E i j :
  entry (logits t Wm E) i j = dot (cols E) E i (normalize_dim0 Wm) j / t.
Proof. reflexivity. Qed.

Lemma dot_normalize E i Wm j :
  dot (cols E) E i (normalize_dim0 Wm) j =
  dot (cols E) E i Wm j / Rmax (col_norm Wm j) eps.
Proof.
  pose proof (clamp_pos Wm j). unfold dot. cbn [entry normalize_dim0]; unfold denominator.
  rewrite (Rsum_ext _ _ (fun k => / Rmax (col_norm Wm j) eps * (entry E i k * entry Wm k j))).
  2:{ intros. field. lra. }
  rewrite Rsum_scal. unfold Rdiv. lra.
Qed.

(** A logit is the cosine between the embedding and the prototype, times the
    norm of the embedding, over the temperature. *)
Lemma logits_cosine t Wm E i j :
  eps <= col_norm Wm j ->
  entry (logits t Wm E) i j = cosine E i Wm j * row_norm E i / t.
Proof.
  intros Hj. pose proof eps_pos.
  rewrite logits_entry, dot_normalize, Rmax_left by exact Hj. unfold cosine.
  destruct (Req_dec_T (row_norm E i) 0) as [H0|H0].
  - assert (Hd : dot (cols E) E i Wm j = 0).
    { unfold dot. rewrite (Rsum_ext _ _ (fun _ => 0)).
      - rewrite Rsum_const. lra.
      - intros k Hk. rewrite (row_norm_zero_entries E i H0 k Hk). lra. }
    rewrite Hd. unfold Rdiv. lra.
  - unfold Rdiv at 1 3. apply Rmult_eq_compat_r. field. split; lra.
Qed.


(** ** Cross-entropy *)

Lemma class_labels_targets_ok C L : class_labels C L -> targets_ok C L = true.
Proof.
  intros H. apply forallb_forall. intros y Hy.
  unfold class_labels in H. rewrite Forall_forall in H. specialize (H y Hy).
  unfold target_ok. apply orb_true_iff. right.
  apply andb_true_iff. split; [apply Z.leb_le | apply Z.ltb_lt]; lia.
Qed.

Lemma class_label_not_ignored C y :
  (0 <= y < Z.of_nat C)%Z -> (y =? ignore_index)%Z = false.
Proof. intros H. apply Z.eqb_neq. unfold ignore_index. lia. Qed.

Lemma sum_exp_pos (x : matrix) i : (0 < cols x)%nat -> 0 < Rsum (cols x) (fun k => exp (entry x i k)).
Proof. intros H. apply Rsum_pos; [exact H | intros; apply exp_pos]. Qed.

Lemma nll_batch_length x L : rows x = length L -> length (nll_batch x L) = length L.
Proof.
  intros H. unfold nll_batch. rewrite length_map, length_combine, length_seq. lia.
Qed.

Lemma nll_batch_nth x L i :
  rows x = length L -> (i < length L)%nat ->
  nth i (nll_batch x L) 0 = nll x i (nth i L 0%Z).
Proof.
  intros H Hi. unfold nll_batch.
  rewrite (nth_indep _ 0 (nll x 0 0%Z)).
  2:{ rewrite length_map, length_combine, length_seq. lia. }
  etransitivity;
    [exact (map_nth (fun iy => nll x (fst iy) (snd iy)) _ (0%nat, 0%Z) i)|].
  rewrite combine_nth by (rewrite length_seq; exact H).
  rewrite seq_nth by lia. reflexivity.
Qed.

Lemma vmul_length u v : length u = length v -> length (vmul u v) = length u.
Proof.
  revert v. induction u as [|x u IH]; intros [|y v] H; simpl in *; try lia.
  now rewrite IH by lia.
Qed.

Lemma bmul_same_length u v : length u = length v -> bmul u v = Some (vmul u v).
Proof. intros H. unfold bmul. now rewrite H, Nat.eqb_refl. Qed.

Lemma vmul_ones u (L : list Z) : length u = length L -> vmul u (ones L) = u.
Proof.
  revert L. induction u as [|x u IH]; intros [|y L] H; simpl in *; try lia; try reflexivity.
  rewrite IH by lia. f_equal. lra.
Qed.

Lemma col_norm_single_row A j : rows A = 1%nat -> col_norm A j = Rabs (entry A 0 j).
Proof.
  intros H. unfold col_norm. rewrite H, Rsum_one.
  rewrite <- sqrt_Rsqr_abs. reflexivity.
Qed.


(** ** Permuting the classes *)

Lemma col_norm_permuted p Wm Wp j :
  permuted_cols p Wm Wp -> (j < cols Wm)%nat -> col_norm Wp (p j) = col_norm Wm j.
Proof.
  intros (Hr & _ & He) Hj. unfold col_norm. rewrite Hr. f_equal.
  apply Rsum_ext. intros i _. now rewrite (He i j Hj).
Qed.

Lemma logits_permuted t p Wm Wp E i j :
  permuted_cols p Wm Wp -> (j < cols Wm)%nat ->
  entry (logits t Wp E) i (p j) = entry (logits t Wm E) i j.
Proof.
  intros Hp Hj. rewrite !logits_entry. f_equal. unfold dot. apply Rsum_ext.
  intros k _. cbn [entry normalize_dim0]; unfold denominator.
  rewrite (col_norm_permuted p Wm Wp j Hp Hj).
  destruct Hp as (_ & _ & He). now rewrite (He k j Hj).
Qed.

Lemma sum_exp_permuted t p Wm Wp E i :
  permutes (cols Wm) p -> permuted_cols p Wm Wp ->
  Rsum (cols Wp) (fun k => exp (entry (logits t Wp E) i k)) =
  Rsum (cols Wm) (fun k => exp (entry (logits t Wm E) i k)).
Proof.
  intros Hperm Hp.
  assert (Hc : cols Wp = cols Wm) by apply Hp. rewrite Hc.
  rewrite <- (Rsum_permutes (cols Wm) p (fun k => exp (entry (logits t Wp E) i k)) Hperm).
  apply Rsum_ext. intros j Hj. now rewrite (logits_permuted t p Wm Wp E i j Hp Hj).
Qed.

Lemma nll_permuted t p Wm Wp E i y :
  permutes (cols Wm) p -> permuted_cols p Wm Wp ->
  (0 <= y < Z.of_nat (cols Wm))%Z ->
  nll (logits t Wp E) i (Z.of_nat (p (Z.to_nat y))) = nll (logits t Wm E) i y.
Proof.
  intros Hperm Hp Hy.
  assert (Hj : (Z.to_nat y < cols Wm)%nat) by lia.
  assert (Hpj : (p (Z.to_nat y) < cols Wm)%nat) by now apply Hperm.
  unfold nll.
  rewrite (class_label_not_ignored (cols Wm) y Hy).
  rewrite (class_label_not_ignored (cols Wm) (Z.of_nat (p (Z.to_nat y)))) by lia.
  rewrite Nat2Z.id. unfold log_softmax.
  change (cols (logits t Wp E)) with (cols Wp).
  change (cols (logits t Wm E)) with (cols Wm).
  rewrite (sum_exp_permuted t p Wm Wp E i Hperm Hp).
  now rewrite (logits_permuted t p Wm Wp E i _ Hp Hj).
Qed.

Lemma nll_batch_permuted t p Wm Wp E L :
  permutes (cols Wm) p -> permuted_cols p Wm Wp -> class_labels (cols Wm) L ->
  nll_batch (logits t Wp E) (relabel p L) = nll_batch (logits t Wm E) L.
Proof.
  intros Hperm Hp HL. unfold nll_batch, relabel.
  change (rows (logits t Wp E)) with (rows E).
  change (rows (logits t Wm E)) with (rows E).
  generalize (seq 0 (rows E)) as idxs.
  induction HL as [|y L Hy HL IH]; intros [|i idxs]; try reflexivity.
  cbn [map combine fst snd]. f_equal; [|apply IH].
  now apply nll_permuted.
Qed.

Lemma relabel_class_labels C p L :
  permutes C p -> class_labels C L -> class_labels C (relabel p L).
Proof.
  intros Hperm HL. unfold class_labels, relabel in *. apply Forall_map.
  apply Forall_impl with (2 := HL). intros y Hy.
  assert ((p (Z.to_nat y) < C)%nat) by (apply Hperm; lia). lia.
Qed.

(** ** Large temperatures *)

Lemma entry_bound_ge A i j :
  (i < rows A)%nat -> (j < cols A)%nat -> Rabs (entry A i j) <= entry_bound A.
Proof.
  intros Hi Hj. unfold entry_bound.
  apply Rle_trans with (Rsum (cols A) (fun j => Rabs (entry A i j))).
  - apply (Rsum_term_le (cols A) (fun j => Rabs (entry A i j))); [|exact Hj].
    intros. apply Rabs_pos.
  - apply (Rsum_term_le (rows A) (fun i => Rsum (cols A) (fun j => Rabs (entry A i j))));
      [|exact Hi].
    intros. apply Rsum_nonneg. intros. apply Rabs_pos.
Qed.

Lemma entry_bound_nonneg A : 0 <= entry_bound A.
Proof.
  unfold entry_bound. apply Rsum_nonneg. intros.
  apply Rsum_nonneg. intros. apply Rabs_pos.
Qed.

Lemma Rabs_le_bounds a b : Rabs a <= b -> - b <= a <= b.
Proof. unfold Rabs. destruct (Rcase_abs a); lra. Qed.

Lemma ln_le_compat a b : 0 < a -> a <= b -> ln a <= ln b.
Proof.
  intros Ha [Hlt | ->]; [|lra]. apply Rlt_le. now apply ln_increasing.
Qed.

Lemma exp_le_compat a b : a <= b -> exp a <= exp b.
Proof. intros [Hlt | ->]; [|lra]. apply Rlt_le. now apply exp_increasing. Qed.

(** When every logit of a sample is within [d] of zero, the logarithm of the
    sum of their exponentials is within [d] of [ln C]. *)
Lemma logsumexp_near_uniform x i d :
  (0 < cols x)%nat ->
  (forall k, (k < cols x)%nat -> Rabs (entry x i k) <= d) ->
  ln (INR (cols x)) - d <= ln (Rsum (cols x) (fun k => exp (entry x i k)))
    <= ln (INR (cols x)) + d.
Proof.
  intros Hc Hb.
  assert (HC : 0 < INR (cols x)) by (apply lt_0_INR; exact Hc).
  pose proof (sum_exp_pos x i Hc) as Hs.
  assert (Hlo : INR (cols x) * exp (- d) <= Rsum (cols x) (fun k => exp (entry x i k))).
  { rewrite <- Rsum_const. apply Rsum_le. intros k Hk.
    apply exp_le_compat. specialize (Hb k Hk).
    apply Rabs_le_bounds in Hb. lra. }
  assert (Hhi : Rsum (cols x) (fun k => exp (entry x i k)) <= INR (cols x) * exp d).
  { rewrite <- Rsum_const. apply Rsum_le. intros k Hk.
    apply exp_le_compat. specialize (Hb k Hk).
    apply Rabs_le_bounds in Hb. lra. }
  split.
  - replace (ln (INR (cols x)) - d) with (ln (INR (cols x) * exp (- d))).
    + apply ln_le_compat; [|exact Hlo].
      apply Rmult_lt_0_compat; [exact HC | apply exp_pos].
    + rewrite ln_mult by (try exact HC; apply exp_pos). rewrite ln_exp. lra.
  - replace (ln (INR (cols x)) + d) with (ln (INR (cols x) * exp d)).
    + now apply ln_le_compat.
    + rewrite ln_mult by (try exact HC; apply exp_pos). now rewrite ln_exp.
Qed.

Lemma nll_near_uniform x i y d :
  (0 <= y < Z.of_nat (cols x))%Z ->
  (forall k, (k < cols x)%nat -> Rabs (entry x i k) <= d) ->
  Rabs (nll x i y - ln (INR (cols x))) <= 2 * d.
Proof.
  intros Hy Hb.
  assert (Hc : (0 < cols x)%nat) by lia.
  pose proof (logsumexp_near_uniform x i d Hc Hb) as [Hlo Hhi].
  assert (Hyk : Rabs (entry x i (Z.to_nat y)) <= d) by (apply Hb; lia).
  apply Rabs_le_bounds in Hyk.
  unfold nll, log_softmax. rewrite (class_label_not_ignored _ _ Hy).
  apply Rabs_le. lra.
Qed.

(** The logits shrink like the inverse of the temperature. *)
Lemma logits_bound t Wm E i j :
  0 < t -> (i < rows E)%nat -> (j < cols Wm)%nat ->
  Rabs (entry (logits t Wm E) i j) <= entry_bound (mmul E (normalize_dim0 Wm)) / t.
Proof.
  intros Ht Hi Hj.
  change (entry (logits t Wm E) i j) with (entry (mmul E (normalize_dim0 Wm)) i j / t).
  unfold Rdiv. rewrite Rabs_mult, (Rabs_right (/ t)).
  2:{ apply Rle_ge, Rlt_le. now apply Rinv_0_lt_compat. }
  apply Rmult_le_compat_r; [apply Rlt_le; now apply Rinv_0_lt_compat|].
  now apply entry_bound_ge.
Qed.

(** ** A call and its closed form *)

Section Run.

Context {indices_tuple_t : Type}.
Variable convert_to_weights : indices_tuple_t -> list Z -> list R.
Variable regularization_loss : matrix -> R.

Local Abbreviation compute_loss' := (compute_loss convert_to_weights regularization_loss).
Local Abbreviation call' := (call convert_to_weights regularization_loss).
Local Abbreviation run := (run_compute_loss convert_to_weights regularization_loss).
Local Abbreviation outcome' := (outcome convert_to_weights regularization_loss).
Local Abbreviation trace' := (trace convert_to_weights regularization_loss).
Local Abbreviation locals' := (locals convert_to_weights regularization_loss).

(** What the caller sees depends on the heap only through the values the
    four references hold. *)
Lemma call_outcome m self emb lab idx o Wm E L :
  resolves m self (Obj o) -> resolves m (W o) (Mat Wm) ->
  resolves m emb (Mat E) -> resolves m lab (Labels L) ->
  call' self emb lab idx m =
  (fst (outcome' (temperature o) Wm E L idx),
   finite m && snd (outcome' (temperature o) Wm E L idx)).
Proof.
  intros Hs Hw He Hl. unfold call. rewrite bind_eq.
  rewrite (compute_loss_exec _ _ m self emb lab idx o Wm E L Hs Hw He Hl).
  unfold outcome, trace.
  destruct (cols E =? rows Wm)%nat; simpl negb; cbv iota; [|reflexivity].
  destruct (rows E =? length L)%nat; simpl negb; cbv iota; [|reflexivity].
  destruct (targets_ok (cols Wm) L); simpl negb; cbv iota; [|reflexivity].
  destruct (bmul _ _) as [p|]; [|reflexivity].
  cbn [fst snd andb app].
  erewrite as_scalar_run; [reflexivity|].
  unfold resolves. cbn [heap].
  rewrite nth_error_app2 by lia.
  replace (length (heap m) + 9 - length (heap m))%nat with 9%nat by lia.
  reflexivity.
Qed.

Lemma initial_resolves t Wm E L :
  let m := initial t Wm E L in
  resolves m 1%nat (Obj {| temperature := t; W := 0%nat |}) /\
  resolves m 0%nat (Mat Wm) /\ resolves m 2%nat (Mat E) /\ resolves m 3%nat (Labels L).
Proof. repeat split. Qed.

Lemma run_outcome t Wm E L idx : run t Wm E L idx = outcome' t Wm E L idx.
Proof.
  unfold run_compute_loss.
  destruct (initial_resolves t Wm E L) as (Hs & Hw & He & Hl).
  rewrite (call_outcome _ _ _ _ _ _ _ _ _ Hs Hw He Hl).
  cbn [temperature initial finite andb]. now destruct (outcome' t Wm E L idx).
Qed.

Lemma locals_trace t Wm E L idx : locals' t Wm E L idx = trace' t Wm E L idx.
Proof.
  unfold locals.
  destruct (initial_resolves t Wm E L) as (Hs & Hw & He & Hl).
  rewrite (compute_loss_exec _ _ _ _ _ _ _ _ _ _ _ Hs Hw He Hl).
  reflexivity.
Qed.

Lemma local_normalized_W_eq t Wm E L idx :
  local_normalized_W convert_to_weights regularization_loss t Wm E L idx =
  Some (Mat (normalize_dim0 Wm)).
Proof. unfold local_normalized_W. now rewrite locals_trace. Qed.

Lemma local_exponent_eq t Wm E L idx :
  cols E = rows Wm ->
  local_exponent convert_to_weights regularization_loss t Wm E L idx =
  Some (Mat (logits t Wm E)).
Proof.
  intros H. unfold local_exponent. rewrite locals_trace. unfold trace.
  now rewrite H, Nat.eqb_refl.
Qed.

Lemma local_unweighted_loss_eq t Wm E L idx :
  cols E = rows Wm -> rows E = length L -> targets_ok (cols Wm) L = true ->
  local_unweighted_loss convert_to_weights regularization_loss t Wm E L idx =
  Some (Vec (nll_batch (logits t Wm E) L)).
Proof.
  intros H1 H2 H3. unfold local_unweighted_loss. rewrite locals_trace. unfold trace.
  now rewrite H1, H2, H3, !Nat.eqb_refl.
Qed.

(** The number a well-formed call returns. *)
Lemma outcome_value t Wm E L idx :
  cols E = rows Wm -> rows E = length L -> targets_ok (cols Wm) L = true ->
  length (convert_to_weights idx L) = length L ->
  outcome' t Wm E L idx =
  (inr (vmean (vmul (nll_batch (logits t Wm E) L) (convert_to_weights idx L))
        + regularization_loss (transpose Wm)),
   div_finite (mmul E (normalize_dim0 Wm)) t && negb (length L =? 0)%nat).
Proof.
  intros H1 H2 H3 H4. unfold outcome.
  rewrite H1, H2, H3, !Nat.eqb_refl. simpl negb. cbv iota.
  assert (Hlen : length (nll_batch (logits t Wm E) L) = length (convert_to_weights idx L)).
  { rewrite H4. now apply nll_batch_length. }
  rewrite (bmul_same_length _ _ Hlen). unfold mean_finite.
  rewrite (vmul_length _ _ Hlen), Hlen, H4. reflexivity.
Qed.

End Run.

(** ** The heap only grows *)

Lemma grows_ret {A : Type} (a : A) : grows (ret a).
Proof. intros m. exists []. simpl. now rewrite app_nil_r. Qed.

Lemma grows_raise {A : Type} e : grows (@raise A e).
Proof. intros m. exists []. simpl. now rewrite app_nil_r. Qed.

Lemma grows_alloc v : grows (alloc v).
Proof. intros m. now exists [v]. Qed.

Lemma grows_load r : grows (load r).
Proof.
  intros m. exists []. unfold load.
  destruct (nth_error (heap m) r); simpl; now rewrite app_nil_r.
Qed.

Lemma grows_stays_finite b : grows (stays_finite b).
Proof. intros m. exists []. simpl. now rewrite app_nil_r. Qed.

Lemma grows_bind {A B : Type} (c : M A) (k : A -> M B) :
  grows c -> (forall a, grows (k a)) -> grows (bind c k).
Proof.
  intros Hc Hk m. unfold bind. destruct (Hc m) as [l Hl].
  destruct (c m) as [[e|a] m1]; simpl in Hl.
  - now exists l.
  - destruct (Hk a m1) as [l' Hl']. exists (l ++ l').
    now rewrite Hl', Hl, app_assoc.
Qed.

Create HintDb grows.
#[local] Hint Resolve grows_ret grows_raise grows_alloc grows_load
  grows_stays_finite : grows.

Ltac grows_auto :=
  repeat first
    [ apply grows_bind; [|intros ?]
    | solve [auto with grows]
    | match goal with
      | |- grows (match ?v with _ => _ end) => destruct v
      | |- grows (if ?b then _ else _) => destruct b
      end ].

Lemma grows_as_mat r : grows (as_mat r).
Proof. unfold as_mat. grows_auto. Qed.

Lemma grows_as_vec r : grows (as_vec r).
Proof. unfold as_vec. grows_auto. Qed.

Lemma grows_as_labels r : grows (as_labels r).
Proof. unfold as_labels. grows_auto. Qed.

Lemma grows_as_scalar r : grows (as_scalar r).
Proof. unfold as_scalar. grows_auto. Qed.

Lemma grows_as_obj r : grows (as_obj r).
Proof. unfold as_obj. grows_auto. Qed.

#[local] Hint Resolve grows_as_mat grows_as_vec grows_as_labels grows_as_scalar
  grows_as_obj : grows.

Lemma grows_normalize a : grows (torch.normalize_p2_dim0 a).
Proof. unfold torch.normalize_p2_dim0. grows_auto. Qed.

Lemma grows_matmul a b : grows (torch.matmul a b).
Proof. unfold torch.matmul. grows_auto. Qed.

Lemma grows_div a t : grows (torch.div a t).
Proof. unfold torch.div. grows_auto. Qed.

Lemma grows_cross_entropy a b : grows (torch.cross_entropy_none a b).
Proof. unfold torch.cross_entropy_none. grows_auto. Qed.

Lemma grows_mul a b : grows (torch.mul a b).
Proof. unfold torch.mul. grows_auto. Qed.

Lemma grows_mean a : grows (torch.mean a).
Proof. unfold torch.mean. grows_auto. Qed.

Lemma grows_t a : grows (torch.t a).
Proof. unfold torch.t. grows_auto. Qed.

Lemma grows_add a b : grows (torch.add a b).
Proof. unfold torch.add. grows_auto. Qed.

Lemma grows_randn sample n k : grows (torch.randn sample n k).
Proof. unfold torch.randn. grows_auto. Qed.

#[local] Hint Resolve grows_normalize grows_matmul grows_div grows_cross_entropy
  grows_mul grows_mean grows_t grows_add grows_randn : grows.

Lemma grows_compute_loss {I : Type} (cw : I -> list Z -> list R) (reg : matrix -> R)
    self emb lab idx :
  grows (compute_loss cw reg self emb lab idx).
Proof.
  unfold compute_loss, lmu_convert_to_weights, self_regularization_loss,
    getattr_W, getattr_temperature.
  grows_auto.
Qed.

Lemma grows_init sample t D C : grows (__init__ sample t D C).
Proof. unfold __init__, torch.nn_Parameter. grows_auto. Qed.

Lemma grows_resolves {A : Type} (c : M A) m r v :
  grows c -> resolves m r v -> resolves (snd (c m)) r v.
Proof.
  intros Hc Hr. destruct (Hc m) as [l Hl]. unfold resolves in *. rewrite Hl.
  rewrite nth_error_app1; [exact Hr|]. apply nth_error_Some. congruence.
Qed.

Lemma grows_firstn {A : Type} (c : M A) m :
  grows c -> firstn (length (heap m)) (heap (snd (c m))) = heap m.
Proof.
  intros Hc. destruct (Hc m) as [l Hl]. rewrite Hl.
  rewrite firstn_app, Nat.sub_diag, firstn_all. simpl. now rewrite app_nil_r.
Qed.

(** ** The constructor *)

Lemma push_length m v : length (heap (push m v)) = S (length (heap m)).
Proof. unfold push. cbn [heap]. rewrite length_app. simpl. lia. Qed.

Lemma init_run sample t D C m :
  (0 <= D)%Z -> (0 <= C)%Z ->
  __init__ sample t D C m =
  (inr (S (length (heap m))),
   push (push m (Mat {| rows := Z.to_nat D; cols := Z.to_nat C; entry := sample |}))
        (Obj {| temperature := t; W := length (heap m) |})).
Proof.
  intros HD HC. unfold __init__, torch.randn.
  replace ((D <? 0) || (C <? 0))%Z with false.
  2:{ symmetry. apply orb_false_iff. split; apply Z.ltb_ge; lia. }
  unfold bind, alloc, torch.nn_Parameter, ret. cbn [heap push].
  rewrite length_app. simpl. now rewrite Nat.add_1_r.
Qed.

Lemma init_raises sample t D C m :
  (D < 0 \/ C < 0)%Z -> __init__ sample t D C m = (inl RuntimeError, m).
Proof.
  intros H. unfold __init__, torch.randn.
  replace ((D <? 0) || (C <? 0))%Z with true; [reflexivity|].
  symmetry. apply orb_true_iff. destruct H; [left | right]; apply Z.ltb_lt; lia.
Qed.

(** ** Claims *)

Section Claims.

Context {indices_tuple_t : Type}.
Variable convert_to_weights : indices_tuple_t -> list Z -> list R.
Variable regularization_loss : matrix -> R.

Local Abbreviation run := (run_compute_loss convert_to_weights regularization_loss).

(** C9. [compute_loss] changes nothing that existed before the call: every
    object of the heap (the parameter [W], the module with its temperature, the
    caller's embeddings and labels) holds the same value afterwards, whether
    the call returns or raises.  What the caller gets is determined by the
    values of [W], the temperature and the arguments alone, and a second call
    on the heap the first one left gives the same result. *)
Theorem compute_loss_frame m self emb lab idx o Wm E L :
  resolves m self (Obj o) -> resolves m (W o) (Mat Wm) ->
  resolves m emb (Mat E) -> resolves m lab (Labels L) ->
  let m' := snd (compute_loss convert_to_weights regularization_loss self emb lab idx m) in
  firstn (length (heap m)) (heap m') = heap m /\
  (resolves m' self (Obj o) /\ resolves m' (W o) (Mat Wm) /\
   resolves m' emb (Mat E) /\ resolves m' lab (Labels L)) /\
  call convert_to_weights regularization_loss self emb lab idx m =
    (fst (run (temperature o) Wm E L idx),
     finite m && snd (run (temperature o) Wm E L idx)) /\
  fst (call convert_to_weights regularization_loss self emb lab idx m') =
  fst (call convert_to_weights regularization_loss self emb lab idx m).
Proof.
  intros Hs Hw He Hl m'.
  pose proof (grows_compute_loss convert_to_weights regularization_loss self emb lab idx) as G.
  assert (Hs' : resolves m' self (Obj o)) by (apply grows_resolves; assumption).
  assert (Hw' : resolves m' (W o) (Mat Wm)) by (apply grows_resolves; assumption).
  assert (He' : resolves m' emb (Mat E)) by (apply grows_resolves; assumption).
  assert (Hl' : resolves m' lab (Labels L)) by (apply grows_resolves; assumption).
  split; [apply grows_firstn, G|].
  split; [auto|].
  rewrite (call_outcome _ _ _ _ _ _ _ _ _ _ _ Hs Hw He Hl).
  rewrite (call_outcome _ _ _ _ _ _ _ _ _ _ _ Hs' Hw' He' Hl').
  rewrite run_outcome. split; reflexivity.
Qed.

(** The frame property without any assumption on what the references hold. *)
Lemma compute_loss_frame_any m self emb lab idx :
  firstn (length (heap m))
    (heap (snd (compute_loss convert_to_weights regularization_loss self emb lab idx m)))
  = heap m.
Proof. apply grows_firstn, grows_compute_loss. Qed.

Lemma raised_outcome_temperature t t' Wm E L idx :
  raised (outcome convert_to_weights regularization_loss t Wm E L idx) =
  raised (outcome convert_to_weights regularization_loss t' Wm E L idx).
Proof.
  unfold raised, outcome.
  destruct (cols E =? rows Wm)%nat; simpl negb; cbv iota; [|reflexivity].
  destruct (rows E =? length L)%nat; simpl negb; cbv iota; [|reflexivity].
  destruct (targets_ok (cols Wm) L); simpl negb; cbv iota; [|reflexivity].
  assert (Hb : forall u v w : list R, length u = length v ->
            (exists p, bmul u w = Some p) -> exists q, bmul v w = Some q).
  { intros u v w Huv [p Hp]. unfold bmul in *. rewrite <- Huv.
    destruct (length u =? length w)%nat; [eauto|].
    destruct u as [|x [|x' u]], v as [|y [|y' v]]; simpl in Huv; try lia;
      destruct w as [|z [|z' w]]; try discriminate; eauto. }
  set (u := nll_batch (logits t Wm E) L). set (v := nll_batch (logits t' Wm E) L).
  assert (Huv : length u = length v).
  { unfold u, v, nll_batch. now rewrite !length_map. }
  destruct (bmul u _) as [p|] eqn:Hu; destruct (bmul v _) as [q|] eqn:Hv;
    cbn [fst]; try reflexivity.
  - destruct (Hb u v _ Huv (ex_intro _ p Hu)) as [q Hq]. congruence.
  - destruct (Hb v u _ (eq_sym Huv) (ex_intro _ q Hv)) as [p Hp]. congruence.
Qed.

(** C7. The temperature is never checked.  The constructor stores whatever
    number it is given; whether a call raises, and what, is the same for every
    temperature; the division is the only place the value matters: by a
    temperature other than zero (so by every positive one) it stays within the
    reals, by zero it does not raise but leaves them. *)
Theorem temperature_never_checked sample (t : R) D C m Wm E L idx :
  (0 <= D)%Z -> (0 <= C)%Z ->
  cols E = rows Wm -> (0 < numel (mmul E (normalize_dim0 Wm)))%nat ->
  (exists self w m',
      __init__ sample t D C m = (inr self, m') /\
      resolves m' self (Obj {| temperature := t; W := w |})) /\
  (forall t', raised (run t Wm E L idx) = raised (run t' Wm E L idx)) /\
  local_exponent convert_to_weights regularization_loss t Wm E L idx =
    Some (Mat (div_scalar (mmul E (normalize_dim0 Wm)) t)) /\
  (t <> 0 -> div_finite (mmul E (normalize_dim0 Wm)) t = true) /\
  (t = 0 -> snd (run t Wm E L idx) = false).
Proof.
  intros HD HC Hshape Hnum. repeat split.
  - eexists _, _, _. split; [apply init_run; assumption|].
    rewrite <- (push_length m (Mat {| rows := Z.to_nat D; cols := Z.to_nat C; entry := sample |})).
    apply resolves_push_new.
  - intros t'. rewrite !run_outcome. apply raised_outcome_temperature.
  - now apply local_exponent_eq.
  - intros Ht. unfold div_finite. destruct (Req_dec_T t 0); [contradiction | reflexivity].
  - intros ->. rewrite run_outcome. unfold outcome.
    rewrite Hshape, Nat.eqb_refl. simpl negb. cbv iota.
    assert (Hf : div_finite (mmul E (normalize_dim0 Wm)) 0 = false).
    { unfold div_finite. destruct (Req_dec_T 0 0) as [_|Hn]; [|now destruct Hn].
      apply Nat.eqb_neq. lia. }
    rewrite Hf.
    destruct (rows E =? length L)%nat; simpl negb; cbv iota; [|reflexivity].
    destruct (targets_ok (cols Wm) L); simpl negb; cbv iota; [|reflexivity].
    now destruct (bmul _ _).
Qed.


(** A call on a well-formed, non-empty batch with a temperature other than
    zero returns a number and stays within the reals. *)
Lemma compute_loss_defined t Wm E L idx :
  cols E = rows Wm -> rows E = length L -> (0 < length L)%nat ->
  class_labels (cols Wm) L -> t <> 0 ->
  length (convert_to_weights idx L) = length L ->
  exists r, run t Wm E L idx = (inr r, true).
Proof.
  intros H1 H2 H3 H4 Ht H5.
  rewrite run_outcome, outcome_value
    by (try assumption; now apply class_labels_targets_ok).
  eexists. f_equal. unfold div_finite.
  destruct (Req_dec_T t 0); [contradiction|].
  destruct (length L); [lia | reflexivity].
Qed.

(** C2, as the code has it.  Every column of [W] whose norm reaches [eps] is
    rescaled to norm 1, a column of smaller norm is divided by [eps]; the
    logits are the product of the embeddings with this matrix, divided by the
    temperature; for a column whose norm reaches [eps] the logit is the cosine
    between embedding and prototype times the norm of the embedding over the
    temperature. *)
Theorem normalized_logits t Wm E L idx :
  cols E = rows Wm ->
  local_normalized_W convert_to_weights regularization_loss t Wm E L idx
    = Some (Mat (normalize_dim0 Wm)) /\
  local_exponent convert_to_weights regularization_loss t Wm E L idx
    = Some (Mat (div_scalar (mmul E (normalize_dim0 Wm)) t)) /\
  (forall j, eps <= col_norm Wm j -> col_norm (normalize_dim0 Wm) j = 1) /\
  (forall i j, col_norm Wm j <= eps ->
     entry (normalize_dim0 Wm) i j = entry Wm i j / eps) /\
  (forall i j, eps <= col_norm Wm j ->
     entry (div_scalar (mmul E (normalize_dim0 Wm)) t) i j
     = cosine E i Wm j * row_norm E i / t).
Proof.
  intros H.
  split; [apply local_normalized_W_eq|].
  split; [now apply local_exponent_eq|].
  split; [intros j; apply normalize_unit|].
  split; [intros i j; apply normalize_small|].
  intros i j. apply logits_cosine.
Qed.

(** C4, as the code has it.  Permuting the columns of [W] and relabelling
    accordingly leaves the per-sample losses unchanged; the value of
    [compute_loss] is unchanged whenever the two collaborators do not tell the
    difference: the weights do not depend on the names of the labels and the
    penalty is the same on the permuted matrix. *)
Theorem class_permutation_invariance t p Wm Wp E L idx :
  permutes (cols Wm) p -> permuted_cols p Wm Wp -> class_labels (cols Wm) L ->
  convert_to_weights idx (relabel p L) = convert_to_weights idx L ->
  regularization_loss (transpose Wp) = regularization_loss (transpose Wm) ->
  nll_batch (logits t Wp E) (relabel p L) = nll_batch (logits t Wm E) L /\
  run t Wp E (relabel p L) idx = run t Wm E L idx.
Proof.
  intros Hperm Hp HL Hw Hreg.
  pose proof (nll_batch_permuted t p Wm Wp E L Hperm Hp HL) as Hnll.
  split; [exact Hnll|].
  rewrite !run_outcome. unfold outcome.
  destruct Hp as (Hr & Hc & He).
  rewrite Hnll, Hw, Hreg, Hr, Hc.
  replace (length (relabel p L)) with (length L) by (unfold relabel; now rewrite length_map).
  rewrite (class_labels_targets_ok _ _ HL).
  rewrite (class_labels_targets_ok _ _ (relabel_class_labels _ _ _ Hperm HL)).
  replace (div_finite (mmul E (normalize_dim0 Wp)) t)
    with (div_finite (mmul E (normalize_dim0 Wm)) t); [reflexivity|].
  unfold div_finite, numel. cbn [rows cols mmul normalize_dim0]. now rewrite Hc.
Qed.

(** C6. With embeddings, [W] and labels fixed, the logits tend to 0 and every
    per-sample cross-entropy tends to [ln C] as the temperature grows: for
    every tolerance there is a temperature beyond which all of them are within
    the tolerance. *)
Theorem temperature_limit Wm E L idx :
  cols E = rows Wm -> rows E = length L -> class_labels (cols Wm) L ->
  forall tol, 0 < tol ->
  exists T0, 0 < T0 /\ forall t, T0 < t ->
    exists x per_sample,
      local_exponent convert_to_weights regularization_loss t Wm E L idx
        = Some (Mat x) /\
      local_unweighted_loss convert_to_weights regularization_loss t Wm E L idx
        = Some (Vec per_sample) /\
      (forall i j, (i < rows E)%nat -> (j < cols Wm)%nat ->
         Rabs (entry x i j) < tol) /\
      (forall i, (i < rows E)%nat ->
         Rabs (nth i per_sample 0 - ln (INR (cols Wm))) < tol).
Proof.
  intros H1 H2 HL tol Htol.
  set (Mb := entry_bound (mmul E (normalize_dim0 Wm))).
  assert (HMb : 0 <= Mb) by apply entry_bound_nonneg.
  exists ((2 * Mb + 1) / tol).
  assert (HT0 : 0 < (2 * Mb + 1) / tol) by (apply Rdiv_lt_0_compat; lra).
  split; [exact HT0|].
  intros t Ht.
  assert (Htpos : 0 < t) by lra.
  assert (Hd : 2 * (Mb / t) < tol).
  { apply (Rmult_lt_reg_r t); [exact Htpos|].
    replace (2 * (Mb / t) * t) with (2 * Mb) by (field; lra).
    apply (Rmult_lt_compat_l tol) in Ht; [|exact Htol].
    replace (tol * ((2 * Mb + 1) / tol)) with (2 * Mb + 1) in Ht by (field; lra).
    lra. }
  assert (Hdpos : 0 <= Mb / t).
  { apply Rmult_le_pos; [exact HMb|]. apply Rlt_le. now apply Rinv_0_lt_compat. }
  assert (Hx : forall i j, (i < rows E)%nat -> (j < cols Wm)%nat ->
             Rabs (entry (logits t Wm E) i j) <= Mb / t).
  { intros i j Hi Hj. now apply logits_bound. }
  exists (logits t Wm E), (nll_batch (logits t Wm E) L).
  split; [now apply local_exponent_eq|].
  split; [apply local_unweighted_loss_eq; try assumption;
          now apply class_labels_targets_ok|].
  split.
  - intros i j Hi Hj. specialize (Hx i j Hi Hj). lra.
  - intros i Hi.
    rewrite nll_batch_nth by (try exact H2; lia).
    assert (Hy : (0 <= nth i L 0%Z < Z.of_nat (cols Wm))%Z).
    { unfold class_labels in HL. rewrite Forall_forall in HL.
      apply HL, nth_In. lia. }
    pose proof (nll_near_uniform (logits t Wm E) i (nth i L 0%Z) (Mb / t) Hy) as Hn.
    change (cols (logits t Wm E)) with (cols Wm) in Hn.
    specialize (Hn (fun k Hk => Hx i k Hi Hk)). lra.
Qed.

End Claims.

(** ** The claims on concrete inputs *)

(** One embedding, two classes with the same prototype: the loss is [ln 2]. *)
Example loss_of_two_equal_prototypes :
  run_compute_loss no_miner no_regularizer 1 W_11 E_1 [0%Z] tt = (inr (ln 2), true).
Proof.
  rewrite run_outcome, outcome_value by reflexivity.
  assert (Hn : col_norm W_11 0 = 1 /\ col_norm W_11 1 = 1).
  { unfold col_norm, W_11, of_rows, Rsum. simpl.
    split; (replace (1 * 1 + 0) with 1 by lra); apply sqrt_1. }
  destruct Hn as [Hn0 Hn1].
  assert (Hm : Rmax 1 eps = 1) by (apply Rmax_left; unfold eps; lra).
  assert (Hf : div_finite (mmul E_1 (normalize_dim0 W_11)) 1 = true).
  { unfold div_finite. destruct (Req_dec_T 1 0); [lra | reflexivity]. }
  rewrite Hf. cbn [andb length Nat.eqb negb]. f_equal. f_equal.
  unfold vmean, nll_batch, nll, log_softmax, logits, no_miner, no_regularizer, ones.
  cbn [rows cols entry div_scalar mmul normalize_dim0 E_1 W_11 of_rows length hd
       seq combine map fst snd vmul vsum fold_right Z.eqb ignore_index Z.to_nat].
  unfold dot, Rsum. cbn [seq map vsum fold_right cols entry normalize_dim0 E_1 W_11 of_rows length hd nth].
  unfold denominator. rewrite Hn0, Hn1, Hm.
  replace ((1 * (1 / 1) + 0) / 1) with 1 by field.
  replace (exp 1 + (exp 1 + 0)) with (2 * exp 1) by lra.
  rewrite ln_mult by (try apply exp_pos; lra). rewrite ln_exp.
  simpl INR. field.
Qed.

Lemma class_labels_one_sample : class_labels 2 [0%Z].
Proof. repeat constructor; simpl; lia. Defined.

Lemma permutes_swap : permutes 2 swap.
Proof.
  split.
  - intros j Hj. unfold swap. lia.
  - intros i j Hi Hj. unfold swap. lia.
Defined.

Lemma permuted_cols_swap : permuted_cols swap W_12 W_21.
Proof.
  repeat split. intros k j Hj.
  destruct j as [|[|j]]; [| |simpl in Hj; lia];
    destruct k as [|[|k]]; reflexivity.
Defined.

(** C2 fails as stated: the single column of [W_0] is the zero vector, and
    the column the call normalises it to has norm 0, not 1. *)
Lemma zero_column_not_unit :
  exists nW,
    local_normalized_W no_miner no_regularizer 1 W_0 E_1 [0%Z] tt = Some (Mat nW) /\
    col_norm nW 0 <> 1.
Proof.
  exists (normalize_dim0 W_0). split; [apply local_normalized_W_eq|].
  rewrite col_norm_normalize.
  assert (H : col_norm W_0 0 = 0).
  { apply col_norm_zero. intros i Hi. simpl in Hi. destruct i; [reflexivity | lia]. }
  rewrite H. unfold Rdiv. lra.
Qed.

Lemma normalized_logits_witness :
  cols E_1 = rows W_11 /\
  local_exponent no_miner no_regularizer 1 W_11 E_1 [0%Z] tt
    = Some (Mat (div_scalar (mmul E_1 (normalize_dim0 W_11)) 1)).
Proof.
  split; [reflexivity|].
  exact (proj1 (proj2
    (normalized_logits no_miner no_regularizer 1 W_11 E_1 [0%Z] tt eq_refl))).
Defined.

(** C4 fails as stated: with a regulariser that looks at one position of the
    matrix, exchanging the two columns of [W_12] and relabelling changes the
    value of the call. *)
Lemma position_sensitive_regularizer_breaks_invariance :
  permutes (cols W_12) swap /\ permuted_cols swap W_12 W_21 /\
  class_labels (cols W_12) [0%Z] /\
  fst (run_compute_loss no_miner first_entry 1 W_21 E_1 (relabel swap [0%Z]) tt) <>
  fst (run_compute_loss no_miner first_entry 1 W_12 E_1 [0%Z] tt).
Proof.
  split; [exact permutes_swap|].
  split; [exact permuted_cols_swap|].
  split; [exact class_labels_one_sample|].
  rewrite !run_outcome.
  rewrite (outcome_value no_miner first_entry 1 W_21 E_1 (relabel swap [0%Z]) tt)
    by reflexivity.
  rewrite (outcome_value no_miner first_entry 1 W_12 E_1 [0%Z] tt) by reflexivity.
  rewrite (nll_batch_permuted 1 swap W_12 W_21 E_1 [0%Z]
             permutes_swap permuted_cols_swap class_labels_one_sample).
  cbn [fst]. intros H. injection H as H.
  change (no_miner tt (relabel swap [0%Z])) with (no_miner tt [0%Z]) in H.
  unfold first_entry in H. simpl entry in H.
  apply Rplus_eq_reg_l in H. lra.
Qed.

Lemma class_permutation_invariance_witness :
  run_compute_loss no_miner no_regularizer 1 W_21 E_1 (relabel swap [0%Z]) tt =
  run_compute_loss no_miner no_regularizer 1 W_12 E_1 [0%Z] tt.
Proof.
  exact (proj2 (class_permutation_invariance no_miner no_regularizer
           1 swap W_12 W_21 E_1 [0%Z] tt
           permutes_swap permuted_cols_swap class_labels_one_sample eq_refl eq_refl)).
Defined.


Lemma temperature_limit_witness :
  exists T0, 0 < T0 /\ forall t, T0 < t ->
    exists x per_sample,
      local_exponent no_miner no_regularizer t W_11 E_1 [0%Z] tt = Some (Mat x) /\
      local_unweighted_loss no_miner no_regularizer t W_11 E_1 [0%Z] tt
        = Some (Vec per_sample) /\
      (forall i j, (i < rows E_1)%nat -> (j < cols W_11)%nat ->
         Rabs (entry x i j) < 1) /\
      (forall i, (i < rows E_1)%nat ->
         Rabs (nth i per_sample 0 - ln (INR (cols W_11))) < 1).
Proof.
  exact (temperature_limit no_miner no_regularizer W_11 E_1 [0%Z] tt
           eq_refl eq_refl class_labels_one_sample 1 Rlt_0_1).
Defined.

Lemma temperature_never_checked_witness :
  (exists self w m',
      __init__ (fun _ _ => 0) 0 1 2 empty_machine = (inr self, m') /\
      resolves m' self (Obj {| temperature := 0; W := w |})) /\
  snd (run_compute_loss no_miner no_regularizer 0 W_11 E_1 [0%Z] tt) = false.
Proof.
  assert (Hnum : (0 < numel (mmul E_1 (normalize_dim0 W_11)))%nat) by (unfold numel; simpl; lia).
  destruct (temperature_never_checked no_miner no_regularizer
              (fun _ _ => 0) 0 1%Z 2%Z empty_machine W_11 E_1 [0%Z] tt
              (Z.le_0_1) (Z.le_0_2) eq_refl Hnum)
    as (Hinit & _ & _ & _ & Hzero).
  split; [exact Hinit | exact (Hzero eq_refl)].
Defined.

Lemma compute_loss_frame_witness :
  let m := initial 1 W_11 E_1 [0%Z] in
  firstn 4 (heap (snd (compute_loss no_miner no_regularizer 1%nat 2%nat 3%nat tt m)))
  = heap m.
Proof.
  exact (proj1 (compute_loss_frame no_miner no_regularizer
           (initial 1 W_11 E_1 [0%Z]) 1%nat 2%nat 3%nat tt
           {| temperature := 1; W := 0%nat |} W_11 E_1 [0%Z]
           eq_refl eq_refl eq_refl eq_refl)).
Defined.


(** * Further properties of a call *)

(** ** Broadcasting of the weights *)

Lemma bmul_none_iff u v :
  bmul u v = None <-> broadcastable (length u) (length v) = false.
Proof.
  unfold bmul, broadcastable.
  destruct (length u =? length v)%nat eqn:Huv; [simpl; split; discriminate|].
  destruct u as [|x [|x' u]], v as [|y [|y' v]]; simpl in *;
    try discriminate; split; intros H; try discriminate; reflexivity.
Qed.

Lemma bmul_single u w : bmul u [w] = Some (map (fun x => x * w) u).
Proof.
  unfold bmul. destruct u as [|x [|x' u]]; reflexivity.
Qed.

Lemma vsum_map_scal_r {A : Type} (c : R) (f : A -> R) l :
  vsum (map (fun a => f a * c) l) = vsum (map f l) * c.
Proof. induction l as [|a l IH]; simpl; [lra | rewrite IH; lra]. Qed.

Lemma vsum_zero u : Forall (fun x => x = 0) u -> vsum u = 0.
Proof. induction 1 as [|x u Hx _ IH]; simpl; [reflexivity | rewrite Hx, IH; lra]. Qed.

Lemma vsum_nonneg u : Forall (fun x => 0 <= x) u -> 0 <= vsum u.
Proof. induction 1 as [|x u Hx _ IH]; simpl; lra. Qed.

Lemma vmul_nonneg u v :
  Forall (fun x => 0 <= x) u -> Forall (fun x => 0 <= x) v ->
  Forall (fun x => 0 <= x) (vmul u v).
Proof.
  intros Hu. revert v. induction Hu as [|x u Hx _ IH]; intros v Hv; [constructor|].
  destruct Hv as [|y v Hy Hv]; simpl; constructor; [nra | now apply IH].
Qed.

Lemma vmean_nonneg u : 0 <= vsum u -> 0 <= vmean u.
Proof.
  intros H. unfold vmean, Rdiv. apply Rmult_le_pos; [exact H|].
  destruct (length u) as [|n].
  - simpl. rewrite Rinv_0. lra.
  - apply Rlt_le, Rinv_0_lt_compat, lt_0_INR. lia.
Qed.

(** ** Per-sample losses *)

Lemma exp_term_le_sum (x : matrix) i j :
  (j < cols x)%nat -> exp (entry x i j) <= Rsum (cols x) (fun k => exp (entry x i k)).
Proof.
  intros Hj. apply (Rsum_term_le (cols x) (fun k => exp (entry x i k))); [|exact Hj].
  intros. apply Rlt_le, exp_pos.
Qed.

Lemma nll_nonneg x i y : target_ok (cols x) y = true -> 0 <= nll x i y.
Proof.
  intros Hy. unfold nll. destruct (y =? ignore_index)%Z eqn:Hi; [lra|].
  unfold target_ok in Hy. rewrite Hi in Hy. simpl in Hy.
  apply andb_true_iff in Hy. destruct Hy as [H0 HC].
  apply Z.leb_le in H0. apply Z.ltb_lt in HC.
  assert (Hj : (Z.to_nat y < cols x)%nat) by lia.
  unfold log_softmax.
  pose proof (exp_term_le_sum x i _ Hj) as Hle.
  apply ln_le_compat in Hle; [|apply exp_pos]. rewrite ln_exp in Hle. lra.
Qed.

Lemma nll_batch_nonneg x L :
  targets_ok (cols x) L = true -> Forall (fun v => 0 <= v) (nll_batch x L).
Proof.
  intros H. unfold nll_batch. apply Forall_map, Forall_forall.
  intros [i y] Hin. cbn [fst snd]. apply nll_nonneg.
  unfold targets_ok in H. rewrite forallb_forall in H.
  apply H. now apply in_combine_r in Hin.
Qed.

Lemma nll_batch_ext x x' L :
  rows x' = rows x -> cols x' = cols x ->
  (forall i j, (i < rows x)%nat -> (j < cols x)%nat -> entry x' i j = entry x i j) ->
  targets_ok (cols x) L = true ->
  nll_batch x' L = nll_batch x L.
Proof.
  intros Hr Hc He HL. unfold nll_batch. rewrite Hr.
  apply map_ext_in. intros [i y] Hin. cbn [fst snd].
  assert (Hi : (i < rows x)%nat).
  { apply in_combine_l in Hin. apply in_seq in Hin. lia. }
  assert (Hy : target_ok (cols x) y = true).
  { unfold targets_ok in HL. rewrite forallb_forall in HL.
    apply HL. now apply in_combine_r in Hin. }
  unfold nll. destruct (y =? ignore_index)%Z eqn:Hig; [reflexivity|].
  unfold target_ok in Hy. rewrite Hig in Hy. simpl in Hy.
  apply andb_true_iff in Hy. destruct Hy as [H0 HC].
  apply Z.leb_le in H0. apply Z.ltb_lt in HC.
  unfold log_softmax. rewrite Hc.
  rewrite (He i (Z.to_nat y) Hi) by lia.
  rewrite (Rsum_ext _ (fun k => exp (entry x' i k)) (fun k => exp (entry x i k)));
    [reflexivity|].
  intros k Hk. now rewrite (He i k Hi Hk).
Qed.

Lemma masked_products_zero x L w :
  Forall2 masked L w ->
  forall idxs,
    Forall (fun v => v = 0)
      (vmul (map (fun iy => nll x (fst iy) (snd iy)) (combine idxs L)) w).
Proof.
  induction 1 as [|y v L w Hm _ IH]; intros [|i idxs]; simpl; try constructor.
  - destruct Hm as [-> | ->]; [|lra].
    unfold nll. rewrite Z.eqb_refl. lra.
  - apply IH.
Qed.

Lemma vmul_zero_l u v : Forall (fun x => x = 0) u -> Forall (fun x => x = 0) (vmul u v).
Proof.
  intros Hu. revert v. induction Hu as [|x u Hx _ IH]; intros [|y v]; simpl;
    constructor; [rewrite Hx; lra | apply IH].
Qed.

(** With a single class the softmax is 1 and the loss 0. *)
Lemma nll_single_class x i y :
  cols x = 1%nat -> target_ok 1 y = true -> nll x i y = 0.
Proof.
  intros Hc Hy. unfold nll. destruct (y =? ignore_index)%Z eqn:Hi; [reflexivity|].
  unfold target_ok in Hy. rewrite Hi in Hy. simpl in Hy.
  apply andb_true_iff in Hy. destruct Hy as [H0 H1].
  apply Z.leb_le in H0. apply Z.ltb_lt in H1.
  assert (Hy0 : Z.to_nat y = 0%nat) by lia.
  unfold log_softmax. rewrite Hc, Rsum_one, Hy0, ln_exp. lra.
Qed.

(** ** Rescaling *)

Lemma col_norm_scaled c Wm Ws j :
  scaled_cols c Wm Ws -> (j < cols Wm)%nat -> 0 <= c j ->
  col_norm Ws j = c j * col_norm Wm j.
Proof.
  intros (Hr & _ & He) Hj Hc. unfold col_norm. rewrite Hr.
  rewrite (Rsum_ext _ _ (fun i => (c j * c j) * (entry Wm i j * entry Wm i j))).
  2:{ intros i Hi. rewrite (He i j Hi Hj). ring. }
  rewrite Rsum_scal, sqrt_mult_alt by nra.
  now rewrite sqrt_square.
Qed.

Lemma logits_scaled_cols t c Wm Ws E i j :
  scaled_cols c Wm Ws -> cols E = rows Wm -> (j < cols Wm)%nat ->
  0 < c j -> eps <= col_norm Wm j -> eps <= c j * col_norm Wm j ->
  entry (logits t Ws E) i j = entry (logits t Wm E) i j.
Proof.
  intros Hs HE Hj Hc Hn Hn'. pose proof eps_pos as Heps.
  rewrite !logits_entry, !dot_normalize.
  rewrite (col_norm_scaled c Wm Ws j Hs Hj) by lra.
  rewrite !Rmax_left by assumption.
  assert (Hd : dot (cols E) E i Ws j = c j * dot (cols E) E i Wm j).
  { unfold dot. rewrite <- Rsum_scal. apply Rsum_ext. intros k Hk.
    destruct Hs as (_ & _ & He). rewrite (He k j) by (try exact Hj; lia). ring. }
  rewrite Hd. unfold Rdiv at 1 3. apply Rmult_eq_compat_r. field. split; lra.
Qed.

Lemma logits_scale_embeddings t c Wm E i j :
  c <> 0 -> entry (logits (c * t) Wm (scale_matrix c E)) i j = entry (logits t Wm E) i j.
Proof.
  intros Hc. rewrite !logits_entry.
  assert (Hd : dot (cols (scale_matrix c E)) (scale_matrix c E) i (normalize_dim0 Wm) j
               = c * dot (cols E) E i (normalize_dim0 Wm) j).
  { unfold dot. cbn [cols entry scale_matrix]. rewrite <- Rsum_scal.
    apply Rsum_ext. intros. ring. }
  rewrite Hd. unfold Rdiv. rewrite Rinv_mult.
  set (it := / t). field. exact Hc.
Qed.

(** ** The inequality of Cauchy and Schwarz, and what it bounds *)

Lemma Rsum_square_expand n (a b : nat -> R) x :
  Rsum n (fun k => (x * a k - b k) * (x * a k - b k)) =
  x * x * Rsum n (fun k => a k * a k)
  - 2 * x * Rsum n (fun k => a k * b k)
  + Rsum n (fun k => b k * b k).
Proof.
  induction n as [|n IH]; [unfold Rsum; simpl; ring|].
  rewrite !Rsum_S, IH. ring.
Qed.

Lemma cauchy_schwarz n (a b : nat -> R) :
  Rsum n (fun k => a k * b k) * Rsum n (fun k => a k * b k) <=
  Rsum n (fun k => a k * a k) * Rsum n (fun k => b k * b k).
Proof.
  set (A := Rsum n (fun k => a k * a k)).
  set (B := Rsum n (fun k => b k * b k)).
  set (P := Rsum n (fun k => a k * b k)).
  assert (HA : 0 <= A) by apply sum_squares_nonneg.
  assert (HB : 0 <= B) by apply sum_squares_nonneg.
  destruct (Req_dec_T A 0) as [HA0 | HA0].
  - assert (HP : P = 0).
    { unfold P. rewrite (Rsum_ext _ _ (fun _ => 0)).
      - rewrite Rsum_const. lra.
      - intros k Hk.
        pose proof (Rsum_zero_terms n (fun k => a k * a k)
                      (fun k _ => Rle_0_sqr (a k)) HA0 k Hk) as Hz.
        simpl in Hz. assert (a k = 0) by nra. subst. nra. }
    rewrite HP, HA0. lra.
  - assert (HApos : 0 < A) by lra.
    pose proof (Rsum_nonneg n (fun k => (P / A * a k - b k) * (P / A * a k - b k))
                  (fun k _ => Rle_0_sqr _)) as Hq.
    rewrite Rsum_square_expand in Hq. fold A B P in Hq.
    replace (P / A * (P / A) * A - 2 * (P / A) * P + B) with (B - P * P / A) in Hq
      by (field; lra).
    assert (Hdiv : P * P / A <= B) by lra.
    apply (Rmult_le_compat_r A) in Hdiv; [|lra].
    replace (P * P / A * A) with (P * P) in Hdiv by (field; lra). lra.
Qed.

Lemma Rabs_dot_le n (a b : nat -> R) :
  Rabs (Rsum n (fun k => a k * b k)) <=
  sqrt (Rsum n (fun k => a k * a k)) * sqrt (Rsum n (fun k => b k * b k)).
Proof.
  rewrite <- sqrt_mult_alt by apply sum_squares_nonneg.
  rewrite <- sqrt_Rsqr_abs. apply sqrt_le_1_alt. unfold Rsqr. apply cauchy_schwarz.
Qed.

Lemma col_norm_normalize_le_1 A j : col_norm (normalize_dim0 A) j <= 1.
Proof.
  rewrite col_norm_normalize. pose proof (clamp_pos A j) as Hd.
  pose proof (Rmax_l (col_norm A j) eps) as Hl.
  apply (Rmult_le_reg_r (Rmax (col_norm A j) eps)); [exact Hd|].
  unfold Rdiv. rewrite Rmult_assoc, Rinv_l by lra. lra.
Qed.

(** A logit is at most the norm of the embedding over the temperature. *)
Lemma logits_le_embedding_norm t Wm E i j :
  cols E = rows Wm -> t <> 0 ->
  Rabs (entry (logits t Wm E) i j) <= row_norm E i / Rabs t.
Proof.
  intros HE Ht. rewrite logits_entry. unfold Rdiv.
  rewrite Rabs_mult, Rabs_inv.
  apply Rmult_le_compat_r.
  { apply Rlt_le, Rinv_0_lt_compat, Rabs_pos_lt, Ht. }
  pose proof (Rabs_dot_le (cols E) (fun k => entry E i k)
                (fun k => entry (normalize_dim0 Wm) k j)) as Hcs.
  cbv beta in Hcs.
  change (sqrt (Rsum (cols E) (fun k => entry E i k * entry E i k)))
    with (row_norm E i) in Hcs.
  assert (Hc : sqrt (Rsum (cols E)
                 (fun k => entry (normalize_dim0 Wm) k j * entry (normalize_dim0 Wm) k j))
               = col_norm (normalize_dim0 Wm) j).
  { unfold col_norm. cbn [rows normalize_dim0]. now rewrite HE. }
  rewrite Hc in Hcs.
  pose proof (col_norm_normalize_le_1 Wm j).
  pose proof (col_norm_nonneg (normalize_dim0 Wm) j).
  assert (0 <= row_norm E i) by apply sqrt_pos.
  unfold dot. nra.
Qed.

Section Further.

Context {indices_tuple_t : Type}.
Variable convert_to_weights : indices_tuple_t -> list Z -> list R.
Variable regularization_loss : matrix -> R.

Local Abbreviation run := (run_compute_loss convert_to_weights regularization_loss).
Local Abbreviation outcome' := (outcome convert_to_weights regularization_loss).

(** Two calls whose shapes, flags, penalties and logits agree end alike. *)
Lemma outcome_ext t t' Wm Wm' E E' L idx :
  rows Wm' = rows Wm -> cols Wm' = cols Wm ->
  rows E' = rows E -> cols E' = cols E ->
  (cols E = rows Wm ->
   forall i j, (i < rows E)%nat -> (j < cols Wm)%nat ->
     entry (logits t' Wm' E') i j = entry (logits t Wm E) i j) ->
  (t' = 0 <-> t = 0) ->
  regularization_loss (transpose Wm') = regularization_loss (transpose Wm) ->
  outcome' t' Wm' E' L idx = outcome' t Wm E L idx.
Proof.
  intros HrW HcW HrE HcE Hx Ht Hreg. unfold outcome.
  rewrite HrW, HcW, HrE, HcE, Hreg.
  destruct (cols E =? rows Wm)%nat eqn:Hshape; simpl negb; cbv iota; [|reflexivity].
  apply Nat.eqb_eq in Hshape. specialize (Hx Hshape).
  assert (Hf : div_finite (mmul E' (normalize_dim0 Wm')) t'
               = div_finite (mmul E (normalize_dim0 Wm)) t).
  { unfold div_finite, numel. cbn [rows cols mmul normalize_dim0].
    rewrite HrE, HcW.
    destruct (Req_dec_T t' 0) as [H0|H0], (Req_dec_T t 0) as [H1|H1];
      try reflexivity; tauto. }
  rewrite Hf.
  destruct (rows E =? length L)%nat; simpl negb; cbv iota; [|reflexivity].
  destruct (targets_ok (cols Wm) L) eqn:HL; simpl negb; cbv iota; [|reflexivity].
  rewrite (nll_batch_ext (logits t Wm E) (logits t' Wm' E') L); try assumption.
  reflexivity.
Qed.

(** X3. On an empty batch nothing raises, but the mean of no losses is not a
    number: the call returns with [finite] cleared. *)
Theorem empty_batch_leaves_reals t Wm E idx :
  cols E = rows Wm -> rows E = 0%nat ->
  (length (convert_to_weights idx []) <= 1)%nat ->
  raised (run t Wm E [] idx) = None /\ snd (run t Wm E [] idx) = false.
Proof.
  intros H1 H2 Hw. rewrite run_outcome. unfold raised, outcome.
  rewrite H1, H2, Nat.eqb_refl. simpl negb. cbv iota.
  change (nll_batch (logits t Wm E) []) with
    (map (fun iy => nll (logits t Wm E) (fst iy) (snd iy))
         (combine (seq 0 (rows E)) (@nil Z))).
  rewrite H2. cbn [seq combine map].
  destruct (convert_to_weights idx []) as [|w [|w' ws]]; simpl in Hw; try lia;
    cbn [bmul length Nat.eqb fst snd mean_finite negb map];
    split; try reflexivity; apply andb_false_r.
Qed.

(** X12. The shape of the weights is not checked against the batch: a single
    weight is stretched over all samples, and the call returns that weight
    times the mean of the per-sample losses, plus the penalty. *)
Theorem single_weight_is_broadcast t Wm E L idx w :
  cols E = rows Wm -> rows E = length L -> targets_ok (cols Wm) L = true ->
  convert_to_weights idx L = [w] ->
  fst (run t Wm E L idx) =
  inr (w * vmean (nll_batch (logits t Wm E) L) + regularization_loss (transpose Wm)).
Proof.
  intros H1 H2 H3 Hw. rewrite run_outcome. unfold outcome.
  rewrite H1, H2, H3, !Nat.eqb_refl, Hw, bmul_single. simpl negb. cbv iota.
  cbn [fst]. f_equal. f_equal. unfold vmean.
  rewrite length_map.
  rewrite <- (map_id (nll_batch (logits t Wm E) L)) at 1.
  rewrite map_map, (vsum_map_scal_r w (fun x => x)), map_id.
  unfold Rdiv. lra.
Qed.

(** X6. Only the directions of the prototypes matter to the cross-entropy:
    multiplying columns of [W] by positive factors, the norms staying at least
    [eps], changes no logit; the call returns the same whenever the penalty
    is the same. *)
Theorem prototype_scale_invariance t c Wm Ws E L idx :
  scaled_cols c Wm Ws ->
  (forall j, (j < cols Wm)%nat ->
     0 < c j /\ eps <= col_norm Wm j /\ eps <= c j * col_norm Wm j) ->
  (cols E = rows Wm ->
   forall i j, (j < cols Wm)%nat ->
     entry (logits t Ws E) i j = entry (logits t Wm E) i j) /\
  (regularization_loss (transpose Ws) = regularization_loss (transpose Wm) ->
   run t Ws E L idx = run t Wm E L idx).
Proof.
  intros Hs Hc.
  assert (Hx : cols E = rows Wm -> forall i j, (j < cols Wm)%nat ->
                 entry (logits t Ws E) i j = entry (logits t Wm E) i j).
  { intros HE i j Hj. destruct (Hc j Hj) as (H1 & H2 & H3).
    now apply (logits_scaled_cols t c). }
  split; [exact Hx|].
  intros Hreg. rewrite !run_outcome.
  destruct Hs as (Hr & Hcol & _).
  apply outcome_ext; try assumption; try reflexivity.
  intros HE i j _ Hj. now apply Hx.
Qed.

(** X7. Multiplying the embeddings and the temperature by the same non-zero
    factor changes nothing: a call returns what it returned, flag included.
    With the factor -1: a negative temperature acts as the positive one on the
    opposite embeddings. *)
Theorem embedding_temperature_scaling t c Wm E L idx :
  c <> 0 ->
  run (c * t) Wm (scale_matrix c E) L idx = run t Wm E L idx.
Proof.
  intros Hc. rewrite !run_outcome.
  apply outcome_ext; try reflexivity.
  - intros _ i j _ _. now apply logits_scale_embeddings.
  - split; intros H; [|subst; lra].
    apply Rmult_integral in H. tauto.
Qed.

(** X9. Since the prototypes are normalised, a logit is at most the norm of
    the embedding over the absolute temperature, and the cross-entropy of a
    sample differs from [ln C] by at most twice that. *)
Theorem logits_bounded_by_embedding_norm t Wm E L idx :
  cols E = rows Wm -> rows E = length L -> class_labels (cols Wm) L -> t <> 0 ->
  exists x per_sample,
    local_exponent convert_to_weights regularization_loss t Wm E L idx
      = Some (Mat x) /\
    local_unweighted_loss convert_to_weights regularization_loss t Wm E L idx
      = Some (Vec per_sample) /\
    (forall i j, Rabs (entry x i j) <= row_norm E i / Rabs t) /\
    (forall i, (i < rows E)%nat ->
       Rabs (nth i per_sample 0 - ln (INR (cols Wm))) <= 2 * (row_norm E i / Rabs t)).
Proof.
  intros H1 H2 HL Ht.
  exists (logits t Wm E), (nll_batch (logits t Wm E) L).
  split; [now apply local_exponent_eq|].
  split; [apply local_unweighted_loss_eq; try assumption;
          now apply class_labels_targets_ok|].
  split; [intros i j; now apply logits_le_embedding_norm|].
  intros i Hi. rewrite nll_batch_nth by (try exact H2; lia).
  assert (Hy : (0 <= nth i L 0%Z < Z.of_nat (cols Wm))%Z).
  { unfold class_labels in HL. rewrite Forall_forall in HL. apply HL, nth_In. lia. }
  apply (nll_near_uniform (logits t Wm E) i (nth i L 0%Z) (row_norm E i / Rabs t) Hy).
  intros k _. now apply logits_le_embedding_norm.
Qed.

(** X10. A zero embedding is classified uniformly: its logits are 0 and its
    cross-entropy is exactly [ln C], whatever [W] and the temperature. *)
Theorem zero_embedding_loss_is_ln_C t Wm E L idx i :
  cols E = rows Wm -> rows E = length L -> class_labels (cols Wm) L -> t <> 0 ->
  (i < rows E)%nat -> (forall k, (k < cols E)%nat -> entry E i k = 0) ->
  exists x per_sample,
    local_exponent convert_to_weights regularization_loss t Wm E L idx
      = Some (Mat x) /\
    local_unweighted_loss convert_to_weights regularization_loss t Wm E L idx
      = Some (Vec per_sample) /\
    (forall j, entry x i j = 0) /\
    nth i per_sample 0 = ln (INR (cols Wm)).
Proof.
  intros H1 H2 HL Ht Hi Hz.
  exists (logits t Wm E), (nll_batch (logits t Wm E) L).
  split; [now apply local_exponent_eq|].
  split; [apply local_unweighted_loss_eq; try assumption;
          now apply class_labels_targets_ok|].
  assert (Hx : forall j, entry (logits t Wm E) i j = 0).
  { intros j. rewrite logits_entry. unfold dot.
    rewrite (Rsum_ext _ _ (fun _ => 0)) by (intros k Hk; rewrite (Hz k Hk); lra).
    rewrite Rsum_const. unfold Rdiv. lra. }
  split; [exact Hx|].
  rewrite nll_batch_nth by (try exact H2; lia).
  assert (Hy : (0 <= nth i L 0%Z < Z.of_nat (cols Wm))%Z).
  { unfold class_labels in HL. rewrite Forall_forall in HL. apply HL, nth_In. lia. }
  unfold nll, log_softmax. rewrite (class_label_not_ignored _ _ Hy), Hx.
  change (cols (logits t Wm E)) with (cols Wm).
  rewrite (Rsum_ext _ _ (fun _ => 1)) by (intros k _; rewrite Hx; apply exp_0).
  rewrite Rsum_const. rewrite Rmult_1_r. lra.
Qed.

(** X11. Constructor and call fit together: the module built for
    [embedding_size] and [num_classes] accepts every batch of embeddings of
    that size with labels below [num_classes] and one weight per sample, and
    returns the loss of the drawn parameter at the given temperature. *)
Theorem constructed_module_accepts_batch sample t D C m E L idx :
  (0 <= D)%Z -> (0 <= C)%Z ->
  cols E = Z.to_nat D -> rows E = length L -> class_labels (Z.to_nat C) L ->
  length (convert_to_weights idx L) = length L ->
  let Wm := {| rows := Z.to_nat D; cols := Z.to_nat C; entry := sample |} in
  exists self m1,
    __init__ sample t D C m = (inr self, m1) /\
    call convert_to_weights regularization_loss
      self (length (heap m1)) (S (length (heap m1))) idx
      (push (push m1 (Mat E)) (Labels L)) =
    (inr (vmean (vmul (nll_batch (logits t Wm E) L) (convert_to_weights idx L))
          + regularization_loss (transpose Wm)),
     finite m && (div_finite (mmul E (normalize_dim0 Wm)) t
                  && negb (length L =? 0)%nat)).
Proof.
  intros HD HC H1 H2 HL Hw Wm.
  eexists _, _. split; [apply init_run; assumption|].
  set (m0 := push m (Mat Wm)).
  set (o := {| temperature := t; W := length (heap m) |}).
  set (m1 := push m0 (Obj o)).
  assert (Hs : resolves (push (push m1 (Mat E)) (Labels L)) (S (length (heap m))) (Obj o)).
  { do 2 apply resolves_push_old. rewrite <- (push_length m (Mat Wm)).
    apply resolves_push_new. }
  assert (HW : resolves (push (push m1 (Mat E)) (Labels L)) (W o) (Mat Wm)).
  { do 3 apply resolves_push_old. apply resolves_push_new. }
  assert (He : resolves (push (push m1 (Mat E)) (Labels L)) (length (heap m1)) (Mat E)).
  { apply resolves_push_old, resolves_push_new. }
  assert (Hl : resolves (push (push m1 (Mat E)) (Labels L)) (S (length (heap m1))) (Labels L)).
  { rewrite <- (push_length m1 (Mat E)). apply resolves_push_new. }
  rewrite (call_outcome _ _ _ _ _ _ _ _ _ _ _ Hs HW He Hl).
  cbn [temperature o].
  rewrite outcome_value; try assumption; [reflexivity|].
  now apply class_labels_targets_ok.
Qed.

End Further.

(** ** The further properties on concrete inputs *)

Lemma col_norm_W_11 j : (j < 2)%nat -> col_norm W_11 j = 1.
Proof.
  intros Hj. rewrite col_norm_single_row by reflexivity.
  destruct j as [|[|j]]; [| |lia]; simpl; apply Rabs_R1.
Qed.

Lemma scaled_cols_23 : scaled_cols factors_23 W_11 W_23.
Proof.
  repeat split. intros k j Hk Hj. simpl in Hk, Hj.
  destruct k as [|k]; [|lia]. destruct j as [|[|j]]; [| |lia]; simpl; lra.
Qed.

Lemma factors_23_keep_norms j :
  (j < cols W_11)%nat ->
  0 < factors_23 j /\ eps <= col_norm W_11 j /\ eps <= factors_23 j * col_norm W_11 j.
Proof.
  intros Hj. simpl in Hj. rewrite (col_norm_W_11 j Hj).
  unfold eps. destruct j as [|[|j]]; [| |lia]; simpl; lra.
Qed.

Lemma empty_batch_leaves_reals_witness :
  raised (run_compute_loss no_miner no_regularizer 1 W_11 E_none [] tt) = None /\
  snd (run_compute_loss no_miner no_regularizer 1 W_11 E_none [] tt) = false.
Proof.
  exact (empty_batch_leaves_reals no_miner no_regularizer 1 W_11 E_none tt
           eq_refl eq_refl (Nat.le_0_l 1)).
Defined.

Lemma single_weight_is_broadcast_witness :
  fst (run_compute_loss one_weight no_regularizer 1 W_11 E_2 [0%Z; 1%Z] tt) =
  inr (2 * vmean (nll_batch (logits 1 W_11 E_2) [0%Z; 1%Z])
       + no_regularizer (transpose W_11)).
Proof.
  exact (single_weight_is_broadcast one_weight no_regularizer 1 W_11 E_2
           [0%Z; 1%Z] tt 2 eq_refl eq_refl eq_refl eq_refl).
Defined.

Lemma prototype_scale_invariance_witness :
  run_compute_loss no_miner no_regularizer 1 W_23 E_1 [0%Z] tt =
  run_compute_loss no_miner no_regularizer 1 W_11 E_1 [0%Z] tt.
Proof.
  exact (proj2 (prototype_scale_invariance no_miner no_regularizer 1 factors_23
                  W_11 W_23 E_1 [0%Z] tt scaled_cols_23 factors_23_keep_norms)
               eq_refl).
Defined.

Lemma embedding_temperature_scaling_witness :
  run_compute_loss no_miner no_regularizer (-1 * 1) W_11 (scale_matrix (-1) E_1) [0%Z] tt =
  run_compute_loss no_miner no_regularizer 1 W_11 E_1 [0%Z] tt.
Proof.
  assert (H : -1 <> 0) by lra.
  exact (embedding_temperature_scaling no_miner no_regularizer 1 (-1) W_11 E_1 [0%Z] tt H).
Defined.

Lemma logits_bounded_by_embedding_norm_witness :
  exists x per_sample,
    local_exponent no_miner no_regularizer 1 W_11 E_1 [0%Z] tt = Some (Mat x) /\
    local_unweighted_loss no_miner no_regularizer 1 W_11 E_1 [0%Z] tt
      = Some (Vec per_sample) /\
    (forall i j, Rabs (entry x i j) <= row_norm E_1 i / Rabs 1) /\
    (forall i, (i < rows E_1)%nat ->
       Rabs (nth i per_sample 0 - ln (INR (cols W_11))) <= 2 * (row_norm E_1 i / Rabs 1)).
Proof.
  exact (logits_bounded_by_embedding_norm no_miner no_regularizer 1 W_11 E_1 [0%Z] tt
           eq_refl eq_refl class_labels_one_sample R1_neq_R0).
Defined.

Lemma zero_embedding_loss_is_ln_C_witness :
  exists x per_sample,
    local_exponent no_miner no_regularizer 1 W_11 E_0 [0%Z] tt = Some (Mat x) /\
    local_unweighted_loss no_miner no_regularizer 1 W_11 E_0 [0%Z] tt
      = Some (Vec per_sample) /\
    (forall j, entry x 0 j = 0) /\
    nth 0 per_sample 0 = ln (INR (cols W_11)).
Proof.
  assert (Hz : forall k, (k < cols E_0)%nat -> entry E_0 0 k = 0).
  { intros k Hk. simpl in Hk. destruct k; [reflexivity | lia]. }
  exact (zero_embedding_loss_is_ln_C no_miner no_regularizer 1 W_11 E_0 [0%Z] tt 0%nat
           eq_refl eq_refl class_labels_one_sample R1_neq_R0 Nat.lt_0_1 Hz).
Defined.

Lemma constructed_module_accepts_batch_witness :
  exists self m1,
    __init__ (fun _ _ => 1) 1 1 2 empty_machine = (inr self, m1) /\
    call no_miner no_regularizer self (length (heap m1)) (S (length (heap m1))) tt
      (push (push m1 (Mat E_1)) (Labels [0%Z])) =
    (inr (vmean (vmul (nll_batch (logits 1 (mkMatrix 1 2 (fun _ _ => 1)) E_1) [0%Z])
                      (no_miner tt [0%Z]))
          + no_regularizer (transpose (mkMatrix 1 2 (fun _ _ => 1)))),
     finite empty_machine &&
     (div_finite (mmul E_1 (normalize_dim0 (mkMatrix 1 2 (fun _ _ => 1)))) 1
      && negb (length [0%Z] =? 0)%nat)).
Proof.
  exact (constructed_module_accepts_batch no_miner no_regularizer (fun _ _ => 1)
           1 1%Z 2%Z empty_machine E_1 [0%Z] tt
           Z.le_0_1 Z.le_0_2 eq_refl eq_refl class_labels_one_sample eq_refl).
Defined.

(** ** The order of the samples *)

Lemma permute_list_length {A : Type} s (d : A) l : length (permute_list s d l) = length l.
Proof. unfold permute_list. now rewrite length_map, length_seq. Qed.

Lemma permute_list_nth {A : Type} s (d : A) l i :
  (i < length l)%nat -> nth i (permute_list s d l) d = nth (s i) l d.
Proof.
  intros Hi. unfold permute_list.
  rewrite (nth_indep _ d (nth (s 0%nat) l d))
    by (rewrite length_map, length_seq; exact Hi).
  etransitivity; [exact (map_nth (fun i => nth (s i) l d) _ 0%nat i)|].
  now rewrite seq_nth.
Qed.

Lemma logits_permuted_rows t s Wm E Es i j :
  permuted_rows s E Es -> (i < rows E)%nat ->
  entry (logits t Wm Es) i j = entry (logits t Wm E) (s i) j.
Proof.
  intros (_ & Hc & He) Hi. rewrite !logits_entry. f_equal. unfold dot. rewrite Hc.
  apply Rsum_ext. intros k _. now rewrite (He i k Hi).
Qed.

Lemma nll_permuted_rows t s Wm E Es i y :
  permuted_rows s E Es -> (i < rows E)%nat ->
  nll (logits t Wm Es) i y = nll (logits t Wm E) (s i) y.
Proof.
  intros Hp Hi. unfold nll, log_softmax.
  change (cols (logits t Wm Es)) with (cols Wm).
  change (cols (logits t Wm E)) with (cols Wm).
  rewrite (logits_permuted_rows t s Wm E Es i _ Hp Hi).
  rewrite (Rsum_ext _ (fun k => exp (entry (logits t Wm Es) i k))
             (fun k => exp (entry (logits t Wm E) (s i) k))); [reflexivity|].
  intros k _. now rewrite (logits_permuted_rows t s Wm E Es i k Hp Hi).
Qed.

Lemma targets_ok_permute C s L :
  permutes (length L) s -> targets_ok C L = true ->
  targets_ok C (permute_list s 0%Z L) = true.
Proof.
  intros [Hran _] H. unfold targets_ok in *. rewrite forallb_forall in *.
  intros y Hy. unfold permute_list in Hy. apply in_map_iff in Hy.
  destruct Hy as [i [<- Hi]]. apply in_seq in Hi.
  apply H, nth_In, Hran. lia.
Qed.

(** The weighted losses of the reordered batch are those of the batch, in the
    new order: their sum is the same. *)
Lemma weighted_sum_permuted t s Wm E Es L w :
  permutes (rows E) s -> permuted_rows s E Es -> rows E = length L ->
  length w = length L ->
  vsum (vmul (nll_batch (logits t Wm Es) (permute_list s 0%Z L)) (permute_list s 0 w)) =
  vsum (vmul (nll_batch (logits t Wm E) L) w).
Proof.
  intros Hperm Hp HB Hw.
  assert (HBs : rows Es = rows E) by apply Hp.
  assert (Hl1 : length (nll_batch (logits t Wm E) L) = length L)
    by now apply nll_batch_length.
  assert (Hl2 : length (nll_batch (logits t Wm Es) (permute_list s 0%Z L)) = length L).
  { rewrite nll_batch_length; [apply permute_list_length|].
    change (rows (logits t Wm Es)) with (rows Es).
    rewrite permute_list_length. congruence. }
  rewrite !vsum_Rsum_nth.
  rewrite !vmul_length by (rewrite ?permute_list_length; congruence).
  rewrite Hl1, Hl2, <- HB.
  rewrite <- (Rsum_permutes (rows E) s
                (fun i => nth i (vmul (nll_batch (logits t Wm E) L) w) 0) Hperm).
  apply Rsum_ext. intros i Hi.
  assert (Hsi : (s i < rows E)%nat) by now apply Hperm.
  rewrite !vmul_nth by (rewrite ?permute_list_length; congruence).
  rewrite (permute_list_nth s 0 w i) by lia.
  rewrite nll_batch_nth;
    [| change (rows (logits t Wm Es)) with (rows Es);
       rewrite permute_list_length; congruence
     | rewrite permute_list_length; lia].
  rewrite (permute_list_nth s 0%Z L i) by lia.
  rewrite (nll_batch_nth (logits t Wm E) L (s i)) by (try exact HB; lia).
  now rewrite (nll_permuted_rows t s Wm E Es i _ Hp Hi).
Qed.

(** ** Samples classified with a margin *)

Lemma Rsum_indicator n y c :
  (y < n)%nat -> Rsum n (fun k => if (k =? y)%nat then c else 0) = c.
Proof.
  induction n as [|n IH]; intros Hy; [lia|].
  rewrite Rsum_S. destruct (Nat.eq_dec y n) as [->|Hne].
  - rewrite Nat.eqb_refl.
    rewrite (Rsum_ext n _ (fun _ => 0)).
    + rewrite Rsum_const. lra.
    + intros k Hk. destruct (k =? n)%nat eqn:Hkn; [|reflexivity].
      apply Nat.eqb_eq in Hkn. lia.
  - rewrite IH by lia. destruct (n =? y)%nat eqn:Hny; [|lra].
    apply Nat.eqb_eq in Hny. lia.
Qed.

Lemma Rsum_plus n f g : Rsum n (fun k => f k + g k) = Rsum n f + Rsum n g.
Proof.
  induction n as [|n IH]; [unfold Rsum; simpl; lra|].
  rewrite !Rsum_S, IH. lra.
Qed.

Lemma ln_1_plus_le u : 0 < u -> ln (1 + u) <= u.
Proof.
  intros Hu. apply Rle_trans with (ln (exp u)).
  - apply ln_le_compat; [lra|]. apply Rlt_le, exp_ineq1. lra.
  - rewrite ln_exp. lra.
Qed.

(** When the logit of the labelled class exceeds every other logit by [m],
    the loss of the sample is at most [C * exp (- m)]. *)
Lemma nll_margin x i y m :
  (0 <= y < Z.of_nat (cols x))%Z ->
  (forall k, (k < cols x)%nat -> k <> Z.to_nat y ->
     entry x i k <= entry x i (Z.to_nat y) - m) ->
  nll x i y <= INR (cols x) * exp (- m).
Proof.
  intros Hy Hm. set (j := Z.to_nat y) in *.
  assert (Hj : (j < cols x)%nat) by (subst j; lia).
  assert (HC : 0 < INR (cols x)) by (apply lt_0_INR; lia).
  unfold nll, log_softmax. rewrite (class_label_not_ignored _ _ Hy). fold j.
  set (S := Rsum (cols x) (fun k => exp (entry x i k))).
  assert (HS : 0 < S) by (apply sum_exp_pos; lia).
  assert (Hle : S <= exp (entry x i j) * (1 + INR (cols x) * exp (- m))).
  { unfold S.
    apply Rle_trans with
      (Rsum (cols x) (fun k => (if (k =? j)%nat then exp (entry x i j) else 0)
                               + exp (entry x i j - m))).
    - apply Rsum_le. intros k Hk. destruct (k =? j)%nat eqn:Hkj.
      + apply Nat.eqb_eq in Hkj. subst k.
        pose proof (exp_pos (entry x i j - m)). lra.
      + apply Nat.eqb_neq in Hkj. specialize (Hm k Hk Hkj).
        apply exp_le_compat in Hm. lra.
    - rewrite Rsum_plus, Rsum_indicator, Rsum_const by exact Hj.
      unfold Rminus. rewrite exp_plus. lra. }
  assert (Hu : 0 < INR (cols x) * exp (- m))
    by (apply Rmult_lt_0_compat; [exact HC | apply exp_pos]).
  apply ln_le_compat in Hle; [|exact HS].
  rewrite ln_mult in Hle by (try apply exp_pos; lra).
  rewrite ln_exp in Hle.
  pose proof (ln_1_plus_le _ Hu). lra.
Qed.

Section Batch.

Context {indices_tuple_t : Type}.
Variable convert_to_weights : indices_tuple_t -> list Z -> list R.
Variable regularization_loss : matrix -> R.

Local Abbreviation run := (run_compute_loss convert_to_weights regularization_loss).

(** X13. The order of the samples does not matter: reordering the rows of the
    embeddings together with the labels and the weights leaves what the call
    returns unchanged. *)
Theorem batch_order_invariance t s Wm E Es L idx idx' :
  permutes (rows E) s -> permuted_rows s E Es ->
  cols E = rows Wm -> rows E = length L -> targets_ok (cols Wm) L = true ->
  length (convert_to_weights idx L) = length L ->
  convert_to_weights idx' (permute_list s 0%Z L)
    = permute_list s 0 (convert_to_weights idx L) ->
  run t Wm Es (permute_list s 0%Z L) idx' = run t Wm E L idx.
Proof.
  intros Hperm Hp H1 H2 H3 H4 Hw.
  pose proof Hp as (Hr & Hc & _).
  rewrite !run_outcome.
  rewrite (outcome_value _ _ t Wm Es (permute_list s 0%Z L) idx').
  2:{ congruence. }
  2:{ rewrite permute_list_length. congruence. }
  2:{ apply targets_ok_permute; [rewrite <- H2; exact Hperm | exact H3]. }
  2:{ rewrite Hw, !permute_list_length. exact H4. }
  rewrite (outcome_value _ _ t Wm E L idx) by assumption.
  rewrite Hw, permute_list_length.
  assert (Hf : div_finite (mmul Es (normalize_dim0 Wm)) t
               = div_finite (mmul E (normalize_dim0 Wm)) t).
  { unfold div_finite, numel. cbn [rows cols mmul normalize_dim0]. now rewrite Hr. }
  rewrite Hf. f_equal. f_equal. f_equal. unfold vmean.
  assert (Hn : length (nll_batch (logits t Wm E) L) = length L)
    by now apply nll_batch_length.
  assert (Hn' : length (nll_batch (logits t Wm Es) (permute_list s 0%Z L)) = length L).
  { rewrite nll_batch_length; [apply permute_list_length|].
    change (rows (logits t Wm Es)) with (rows Es).
    rewrite permute_list_length. congruence. }
  rewrite (weighted_sum_permuted t s Wm E Es L _ Hperm Hp H2 H4).
  rewrite !vmul_length by (rewrite ?permute_list_length; congruence).
  now rewrite Hn, Hn'.
Qed.

(** X14. A sample classified with a margin costs little: when the logit of
    its class exceeds every other logit by [m], its cross-entropy lies
    between 0 and [C * exp (- m)]. *)
Theorem margin_bounds_loss t Wm E L idx i m :
  cols E = rows Wm -> rows E = length L -> class_labels (cols Wm) L ->
  (i < rows E)%nat ->
  (forall k, (k < cols Wm)%nat -> k <> Z.to_nat (nth i L 0%Z) ->
     entry (logits t Wm E) i k
     <= entry (logits t Wm E) i (Z.to_nat (nth i L 0%Z)) - m) ->
  exists per_sample,
    local_unweighted_loss convert_to_weights regularization_loss t Wm E L idx
      = Some (Vec per_sample) /\
    0 <= nth i per_sample 0 <= INR (cols Wm) * exp (- m).
Proof.
  intros H1 H2 HL Hi Hm.
  pose proof (class_labels_targets_ok _ _ HL) as HT.
  exists (nll_batch (logits t Wm E) L).
  split; [now apply local_unweighted_loss_eq|].
  rewrite nll_batch_nth by (try exact H2; lia).
  assert (Hy : (0 <= nth i L 0%Z < Z.of_nat (cols Wm))%Z).
  { unfold class_labels in HL. rewrite Forall_forall in HL. apply HL, nth_In. lia. }
  split.
  - apply nll_nonneg. change (cols (logits t Wm E)) with (cols Wm).
    unfold target_ok. apply orb_true_iff. right.
    apply andb_true_iff. split; [apply Z.leb_le | apply Z.ltb_lt]; lia.
  - now apply (nll_margin (logits t Wm E) i (nth i L 0%Z) m).
Qed.

End Batch.

Lemma permuted_rows_swap : permuted_rows swap E_2 E_2_swapped.
Proof.
  repeat split. intros i k Hi. simpl in Hi.
  destruct i as [|[|i]]; [reflexivity | reflexivity | lia].
Qed.

Lemma batch_order_invariance_witness :
  run_compute_loss label_miner no_regularizer 1 W_11 E_2_swapped
    (permute_list swap 0%Z [0%Z; 1%Z]) tt =
  run_compute_loss label_miner no_regularizer 1 W_11 E_2 [0%Z; 1%Z] tt.
Proof.
  exact (batch_order_invariance label_miner no_regularizer 1 swap W_11 E_2 E_2_swapped
           [0%Z; 1%Z] tt tt permutes_swap permuted_rows_swap
           eq_refl eq_refl eq_refl eq_refl eq_refl).
Defined.

Lemma logits_W_pm j :
  (j < 2)%nat ->
  entry (logits 1 W_pm E_1) 0 j = match j with O => 1 | _ => -1 end.
Proof.
  intros Hj. rewrite logits_entry, dot_normalize.
  rewrite col_norm_single_row by reflexivity.
  assert (Hm : Rmax 1 eps = 1) by (apply Rmax_left; unfold eps; lra).
  destruct j as [|[|j]]; [| |lia]; unfold dot; rewrite Rsum_one; simpl entry.
  - rewrite Rabs_R1, Hm. field.
  - assert (Ha : Rabs (-1) = 1) by (unfold Rabs; destruct (Rcase_abs (-1)); lra).
    rewrite Ha, Hm. field.
Qed.

Lemma margin_bounds_loss_witness :
  exists per_sample,
    local_unweighted_loss no_miner no_regularizer 1 W_pm E_1 [0%Z] tt
      = Some (Vec per_sample) /\
    0 <= nth 0 per_sample 0 <= INR (cols W_pm) * exp (- 2).
Proof.
  assert (Hm : forall k, (k < cols W_pm)%nat -> k <> Z.to_nat (nth 0 [0%Z] 0%Z) ->
             entry (logits 1 W_pm E_1) 0 k
             <= entry (logits 1 W_pm E_1) 0 (Z.to_nat (nth 0 [0%Z] 0%Z)) - 2).
  { intros k Hk Hne. simpl in Hk, Hne.
    destruct k as [|[|k]]; [contradiction | | lia].
    change (Z.to_nat (nth 0 [0%Z] 0%Z)) with 0%nat.
    rewrite !logits_W_pm by lia. lra. }
  exact (margin_bounds_loss no_miner no_regularizer 1 W_pm E_1 [0%Z] tt 0%nat 2
           eq_refl eq_refl class_labels_one_sample Nat.lt_0_1 Hm).
Defined.

(** * The loss in elementary terms *)

Lemma weighted_sum_sigma u w :
  length u = length w ->
  vsum (vmul u w) = sigma (length u) (fun i => nth i u 0 * nth i w 0).
Proof.
  intros H. rewrite vsum_Rsum_nth, vmul_length, sigma_Rsum by exact H.
  apply Rsum_ext. intros i _. now apply vmul_nth.
Qed.

Lemma vsum_sigma u : vsum u = sigma (length u) (fun i => nth i u 0).
Proof. now rewrite vsum_Rsum_nth, sigma_Rsum. Qed.

Lemma l2_norm_prototype Wm j : l2_norm (rows Wm) (prototype Wm j) = col_norm Wm j.
Proof. unfold l2_norm, prototype, col_norm. now rewrite sigma_Rsum. Qed.

Lemma l2_norm_embedding E i : l2_norm (cols E) (embedding E i) = row_norm E i.
Proof. unfold l2_norm, embedding, row_norm. now rewrite sigma_Rsum. Qed.

(** A logit, written out. *)
Lemma logits_elementary t Wm E i k :
  cols E = rows Wm ->
  entry (logits t Wm E) i k =
  sigma (rows Wm)
    (fun d => entry E i d
              * (entry Wm d k / Rmax (l2_norm (rows Wm) (prototype Wm k)) 1e-12))
  / t.
Proof.
  intros H. rewrite logits_entry, l2_norm_prototype, sigma_Rsum, <- H.
  reflexivity.
Qed.

Lemma accepted_targets_ok C L :
  Forall (fun y => y = (-100)%Z \/ (0 <= y < Z.of_nat C)%Z) L -> targets_ok C L = true.
Proof.
  intros H. apply forallb_forall. intros y Hy.
  rewrite Forall_forall in H. unfold target_ok, ignore_index.
  destruct (H y Hy) as [-> | Hr]; [reflexivity|].
  apply orb_true_iff. right.
  apply andb_true_iff. split; [apply Z.leb_le | apply Z.ltb_lt]; lia.
Qed.

(** The reference logit is the logit of the code when the prototype is at
    least [eps] long. *)
Lemma reference_logit_logits t Wm E i j :
  cols E = rows Wm -> 1e-12 <= l2_norm (rows Wm) (prototype Wm j) ->
  reference_logit t Wm E i j = entry (logits t Wm E) i j.
Proof.
  intros H Hn. rewrite l2_norm_prototype in Hn.
  rewrite (logits_cosine t Wm E i j Hn).
  unfold reference_logit, cosine_similarity, cosine, dot.
  rewrite l2_norm_prototype, <- H, l2_norm_embedding, sigma_Rsum.
  unfold embedding, prototype, Rdiv. lra.
Qed.

Lemma reference_cross_entropy_nll t Wm E i y :
  cols E = rows Wm ->
  (forall j, (j < cols Wm)%nat -> 1e-12 <= l2_norm (rows Wm) (prototype Wm j)) ->
  (0 <= y < Z.of_nat (cols Wm))%Z ->
  reference_cross_entropy (cols Wm) (reference_logit t Wm E i) y
  = nll (logits t Wm E) i y.
Proof.
  intros H Hn Hy.
  assert (Hc : (0 < cols (logits t Wm E))%nat) by (simpl; lia).
  pose proof (sum_exp_pos (logits t Wm E) i Hc) as Hs.
  change (cols (logits t Wm E)) with (cols Wm) in Hs.
  unfold reference_cross_entropy, nll, log_softmax.
  rewrite (class_label_not_ignored _ _ Hy).
  rewrite (reference_logit_logits t Wm E i (Z.to_nat y) H) by (apply Hn; lia).
  rewrite (sigma_ext (cols Wm) _ (fun k => exp (entry (logits t Wm E) i k))).
  2:{ intros k Hk. now rewrite (reference_logit_logits t Wm E i k H (Hn k Hk)). }
  rewrite sigma_Rsum. change (cols (logits t Wm E)) with (cols Wm).
  unfold Rdiv. rewrite ln_mult by (try apply exp_pos; now apply Rinv_0_lt_compat).
  rewrite ln_exp, ln_Rinv by exact Hs. lra.
Qed.

(** The flag of a call on a non-empty batch at a temperature other than 0. *)
Lemma well_posed_flag (A : matrix) t (L : list Z) :
  t <> 0 -> (0 < length L)%nat ->
  div_finite A t && negb (length L =? 0)%nat = true.
Proof.
  intros Ht HL. unfold div_finite.
  destruct (Req_dec_T t 0); [contradiction|].
  destruct (length L); [lia | reflexivity].
Qed.

(** ** Bounds on sums *)




(** * The call in elementary terms *)

Section Elementary.

Context {indices_tuple_t : Type}.
Variable convert_to_weights : indices_tuple_t -> list Z -> list R.
Variable regularization_loss : matrix -> R.

Local Abbreviation run := (run_compute_loss convert_to_weights regularization_loss).

(** What a call returns on an accepted, non-empty batch at a temperature
    other than 0: nothing raises and nothing leaves the reals. *)
Lemma run_value t Wm E L idx :
  cols E = rows Wm -> rows E = length L -> (0 < length L)%nat ->
  targets_ok (cols Wm) L = true -> t <> 0 ->
  length (convert_to_weights idx L) = length L ->
  run t Wm E L idx =
  (inr (vmean (vmul (nll_batch (logits t Wm E) L) (convert_to_weights idx L))
        + regularization_loss (transpose Wm)), true).
Proof.
  intros H1 H2 H3 H4 Ht H5.
  rewrite run_outcome, outcome_value by assumption.
  now rewrite well_posed_flag.
Qed.

(** The loss of one sample, written out. *)
Lemma nll_elementary t Wm E i y :
  cols E = rows Wm ->
  nll (logits t Wm E) i y =
  if (y =? -100)%Z then 0
  else ln (sigma (cols Wm)
             (fun k => exp (sigma (rows Wm)
                              (fun d => entry E i d
                                        * (entry Wm d k
                                           / Rmax (l2_norm (rows Wm) (prototype Wm k)) 1e-12))
                            / t)))
       - sigma (rows Wm)
           (fun d => entry E i d
                     * (entry Wm d (Z.to_nat y)
                        / Rmax (l2_norm (rows Wm) (prototype Wm (Z.to_nat y))) 1e-12))
         / t.
Proof.
  intros H. unfold nll, log_softmax, ignore_index.
  destruct (y =? -100)%Z; [reflexivity|].
  rewrite <- sigma_Rsum. change (cols (logits t Wm E)) with (cols Wm).
  rewrite (sigma_ext (cols Wm) (fun k => exp (entry (logits t Wm E) i k))
             (fun k => exp (sigma (rows Wm)
                              (fun d => entry E i d
                                        * (entry Wm d k
                                           / Rmax (l2_norm (rows Wm) (prototype Wm k)) 1e-12))
                            / t)))
    by (intros k _; now rewrite (logits_elementary t Wm E i k H)).
  rewrite (logits_elementary t Wm E i (Z.to_nat y) H). lra.
Qed.

Lemma class_label_nth C L i :
  class_labels C L -> (i < length L)%nat -> (0 <= nth i L 0%Z < Z.of_nat C)%Z.
Proof.
  intros HL Hi. unfold class_labels in HL. rewrite Forall_forall in HL.
  now apply HL, nth_In.
Qed.

Lemma class_labels_classes C L : class_labels C L -> (0 < length L)%nat -> (0 < C)%nat.
Proof.
  intros HL Hn. pose proof (class_label_nth C L 0 HL Hn). lia.
Qed.


(** C1. On a batch the library accepts (shapes that fit, every label the
    ignored one or a class, one weight per sample, at least one sample, a
    temperature other than 0), [compute_loss] keeps one cross-entropy value
    per sample, sample [i] against label [i], and returns the mean over the
    batch of these values times the weights
    [convert_to_weights indices_tuple labels], plus [regularization_loss] of
    the transpose of [W].  Everything on the right is written out: the logit
    as the sum over the embedding dimension, the cross-entropy as
    log-sum-exp minus the logit of the label. *)
Theorem compute_loss_formula t Wm E L idx :
  cols E = rows Wm -> rows E = length L -> (0 < length L)%nat ->
  Forall (fun y => y = (-100)%Z \/ (0 <= y < Z.of_nat (cols Wm))%Z) L ->
  length (convert_to_weights idx L) = length L -> t <> 0 ->
  let logit i k :=
    sigma (rows Wm)
      (fun d => entry E i d
                * (entry Wm d k / Rmax (l2_norm (rows Wm) (prototype Wm k)) 1e-12))
    / t in
  let cross_entropy i :=
    if (nth i L 0%Z =? -100)%Z then 0
    else ln (sigma (cols Wm) (fun k => exp (logit i k)))
         - logit i (Z.to_nat (nth i L 0%Z)) in
  let weight i := nth i (convert_to_weights idx L) 0 in
  let W_t := {| rows := cols Wm; cols := rows Wm; entry := fun k d => entry Wm d k |} in
  (exists per_sample,
     local_unweighted_loss convert_to_weights regularization_loss t Wm E L idx
       = Some (Vec per_sample) /\
     length per_sample = length L /\
     forall i, (i < length L)%nat -> nth i per_sample 0 = cross_entropy i) /\
  run t Wm E L idx =
  (inr (sigma (length L) (fun i => cross_entropy i * weight i) / INR (length L)
        + regularization_loss W_t), true).
Proof.
  intros H1 H2 H3 H4 H5 Ht logit cross_entropy weight W_t.
  assert (Hok : targets_ok (cols Wm) L = true) by now apply accepted_targets_ok.
  assert (Hlen : length (nll_batch (logits t Wm E) L) = length L)
    by now apply nll_batch_length.
  assert (Hce : forall i, (i < length L)%nat ->
            nth i (nll_batch (logits t Wm E) L) 0 = cross_entropy i).
  { intros i Hi. rewrite nll_batch_nth by (try exact H2; exact Hi).
    now apply nll_elementary. }
  split.
  - exists (nll_batch (logits t Wm E) L).
    split; [now apply local_unweighted_loss_eq|]. split; assumption.
  - rewrite run_value by assumption. f_equal. f_equal. f_equal.
    unfold vmean.
    rewrite weighted_sum_sigma, vmul_length, Hlen by congruence.
    f_equal. apply sigma_ext. intros i Hi. unfold weight. now rewrite Hce.
Qed.

(** C3, as the code has it.  With all weights equal to one and no penalty, on
    a non-empty batch of class labels, at a temperature other than 0 and with
    every prototype at least [1e-12] long, [compute_loss] is the reference
    loss: the plain mean of the textbook cross-entropy of the logits
    cosine similarity times the norm of the embedding over the temperature.
    (For a zero embedding the cosine is taken as 0; its logits are 0 on both
    sides.) *)
Theorem unweighted_unregularized_is_reference t Wm E L idx :
  cols E = rows Wm -> rows E = length L -> (0 < length L)%nat ->
  class_labels (cols Wm) L -> t <> 0 ->
  (forall j, (j < cols Wm)%nat -> 1e-12 <= l2_norm (rows Wm) (prototype Wm j)) ->
  convert_to_weights idx L = map (fun _ => 1) L ->
  regularization_loss
    {| rows := cols Wm; cols := rows Wm; entry := fun k d => entry Wm d k |} = 0 ->
  run t Wm E L idx = (inr (reference_loss t Wm E L), true).
Proof.
  intros H1 H2 H3 H4 Ht Hn Hw H0.
  assert (Hwl : length (convert_to_weights idx L) = length L)
    by (rewrite Hw; apply length_map).
  assert (Hlen : length (nll_batch (logits t Wm E) L) = length L)
    by now apply nll_batch_length.
  rewrite run_value by (try assumption; now apply class_labels_targets_ok).
  change (regularization_loss (transpose Wm)) with
    (regularization_loss
       {| rows := cols Wm; cols := rows Wm; entry := fun k d => entry Wm d k |}).
  rewrite H0, Hw. change (map (fun _ : Z => 1) L) with (ones L).
  rewrite vmul_ones by exact Hlen.
  unfold vmean, reference_loss. rewrite vsum_sigma, Hlen, Rplus_0_r.
  f_equal. f_equal. f_equal. apply sigma_ext. intros i Hi.
  rewrite nll_batch_nth by (try exact H2; exact Hi).
  symmetry. apply reference_cross_entropy_nll; try assumption.
  now apply class_label_nth.
Qed.



(** X2. Once [convert_to_weights] has returned one weight per label, which
    exception the call ends with is decided by the first check that fails, in
    the order of the statements: the product of embeddings and weights
    (RuntimeError), the batch sizes of logits and labels (ValueError), the
    range of the labels (IndexError); when all three pass the call returns.
    The temperature plays no part. *)
Theorem call_raises_first_failed_check t Wm E L idx :
  length (convert_to_weights idx L) = length L ->
  raised (run t Wm E L idx) =
  if negb (cols E =? rows Wm)%nat then Some RuntimeError
  else if negb (rows E =? length L)%nat then Some ValueError
  else if negb (targets_ok (cols Wm) L) then Some IndexError
  else None.
Proof.
  intros Hw. rewrite run_outcome. unfold raised, outcome.
  destruct (cols E =? rows Wm)%nat; simpl negb; cbv iota; [|reflexivity].
  destruct (rows E =? length L)%nat eqn:HB; simpl negb; cbv iota; [|reflexivity].
  destruct (targets_ok (cols Wm) L); simpl negb; cbv iota; [|reflexivity].
  apply Nat.eqb_eq in HB.
  rewrite bmul_same_length; [reflexivity|].
  rewrite Hw. now apply nll_batch_length.
Qed.

(** X4. A sample whose label is the ignored one, or whose weight is zero, adds
    nothing to the loss: when every sample of an accepted, non-empty batch is
    masked in one of the two ways, the call at a temperature other than 0
    returns the penalty alone. *)
Theorem masked_batch_costs_only_penalty t Wm E L idx :
  cols E = rows Wm -> rows E = length L -> (0 < length L)%nat ->
  targets_ok (cols Wm) L = true -> t <> 0 ->
  Forall2 masked L (convert_to_weights idx L) ->
  run t Wm E L idx = (inr (regularization_loss (transpose Wm)), true).
Proof.
  intros H1 H2 H3 H4 Ht Hm.
  assert (Hw : length (convert_to_weights idx L) = length L)
    by (symmetry; exact (Forall2_length Hm)).
  rewrite run_value by assumption. f_equal. f_equal.
  unfold vmean, nll_batch.
  rewrite (vsum_zero _ (masked_products_zero (logits t Wm E) L _ Hm
                          (seq 0 (rows (logits t Wm E))))).
  unfold Rdiv. lra.
Qed.

(** X5. The loss of an accepted, non-empty batch at a temperature other than
    0 is not negative when no weight and no penalty is: every per-sample
    cross-entropy is at least 0. *)
Theorem loss_nonnegative t Wm E L idx :
  cols E = rows Wm -> rows E = length L -> (0 < length L)%nat ->
  targets_ok (cols Wm) L = true -> t <> 0 ->
  length (convert_to_weights idx L) = length L ->
  Forall (fun w => 0 <= w) (convert_to_weights idx L) ->
  0 <= regularization_loss (transpose Wm) ->
  (exists per_sample,
     local_unweighted_loss convert_to_weights regularization_loss t Wm E L idx
       = Some (Vec per_sample) /\
     Forall (fun v => 0 <= v) per_sample) /\
  exists r, run t Wm E L idx = (inr r, true) /\ 0 <= r.
Proof.
  intros H1 H2 H3 H4 Ht H5 Hw Hreg.
  assert (Hn : Forall (fun v => 0 <= v) (nll_batch (logits t Wm E) L))
    by now apply nll_batch_nonneg.
  split.
  { eexists. split; [now apply local_unweighted_loss_eq | exact Hn]. }
  eexists. split; [now apply run_value|].
  pose proof (vmean_nonneg _ (vsum_nonneg _ (vmul_nonneg _ _ Hn Hw))). lra.
Qed.

(** X8. A module with a single class learns nothing from the cross-entropy:
    every per-sample loss of an accepted, non-empty batch is 0 and the call at
    a temperature other than 0 returns the penalty, whatever the embeddings
    and the weights. *)
Theorem single_class_loss_is_penalty t Wm E L idx :
  cols Wm = 1%nat -> cols E = rows Wm -> rows E = length L -> (0 < length L)%nat ->
  targets_ok 1 L = true -> t <> 0 ->
  length (convert_to_weights idx L) = length L ->
  (exists per_sample,
     local_unweighted_loss convert_to_weights regularization_loss t Wm E L idx
       = Some (Vec per_sample) /\
     Forall (fun v => v = 0) per_sample) /\
  run t Wm E L idx = (inr (regularization_loss (transpose Wm)), true).
Proof.
  intros HC H1 H2 H3 H4 Ht H5.
  assert (Hok : targets_ok (cols Wm) L = true) by now rewrite HC.
  assert (Hz : Forall (fun v => v = 0) (nll_batch (logits t Wm E) L)).
  { unfold nll_batch. apply Forall_map, Forall_forall. intros [i y] Hin.
    cbn [fst snd]. apply nll_single_class; [exact HC|].
    unfold targets_ok in H4. rewrite forallb_forall in H4.
    apply H4. now apply in_combine_r in Hin. }
  split.
  { eexists. split; [now apply local_unweighted_loss_eq | exact Hz]. }
  rewrite run_value by assumption. f_equal. f_equal. unfold vmean.
  rewrite (vsum_zero _ (vmul_zero_l _ (convert_to_weights idx L) Hz)).
  unfold Rdiv. lra.
Qed.

End Elementary.

(** ** The elementary statements on concrete inputs *)

Lemma l2_norm_one_dim v : l2_norm 1 v = Rabs (v 0%nat).
Proof.
  unfold l2_norm. cbn [sigma]. rewrite Rplus_0_l. apply sqrt_Rsqr_abs.
Defined.

Lemma Rabs_minus_3 : Rabs (-3) = 3.
Proof. unfold Rabs. destruct (Rcase_abs (-3)); lra. Defined.

Lemma Rabs_2 : Rabs 2 = 2.
Proof. apply Rabs_right. lra. Defined.

Lemma clamp_W_2m3 :
  Rmax (l2_norm 1 (prototype W_2m3 0)) 1e-12 = 2 /\
  Rmax (l2_norm 1 (prototype W_2m3 1)) 1e-12 = 3.
Proof.
  rewrite !l2_norm_one_dim. cbn [prototype W_2m3 of_rows entry nth].
  rewrite Rabs_2, Rabs_minus_3. split; apply Rmax_left; lra.
Defined.

Lemma prototypes_W_2m3_long j :
  (j < cols W_2m3)%nat -> 1e-12 <= l2_norm (rows W_2m3) (prototype W_2m3 j).
Proof.
  intros Hj. change (rows W_2m3) with 1%nat. rewrite l2_norm_one_dim.
  destruct j as [|[|j]]; [| |simpl in Hj; lia];
    cbn [prototype W_2m3 of_rows entry nth];
    [rewrite Rabs_2 | rewrite Rabs_minus_3]; lra.
Defined.

Lemma class_labels_two_samples : class_labels (cols W_2m3) [0%Z; 1%Z].
Proof.
  constructor; [simpl; lia|]. constructor; [simpl; lia|]. constructor.
Defined.

Lemma accepted_two_samples :
  Forall (fun y => y = (-100)%Z \/ (0 <= y < Z.of_nat (cols W_2m3))%Z) [0%Z; 1%Z].
Proof.
  constructor; [right; simpl; lia|]. constructor; [right; simpl; lia|]. constructor.
Defined.

Lemma R2_neq_R0 : 2 <> 0.
Proof. lra. Defined.

(** Two samples 1 and 2, prototypes 2 and -3 (normalised: 1 and -1), labels
    0 and 1, weights 1 and 2, temperature 2, and a penalty that reads one
    entry of the transpose: the logits are (1/2, -1/2) and (1, -1). *)
Lemma compute_loss_formula_witness :
  run_compute_loss label_miner entry_1_0 2 W_2m3 E_2 [0%Z; 1%Z] tt =
  (inr (((ln (exp (1 / 2) + exp (- (1 / 2))) - 1 / 2) * 1
         + (ln (exp 1 + exp (- 1)) - - 1) * 2) / 2
        + - 3), true).
Proof.
  pose proof (proj2 (compute_loss_formula label_miner entry_1_0 2 W_2m3 E_2 [0%Z; 1%Z] tt
                       eq_refl eq_refl Nat.lt_0_2 accepted_two_samples eq_refl
                       R2_neq_R0)) as H.
  cbv zeta in H. rewrite H. f_equal. f_equal.
  cbn [length sigma nth label_miner map Z.eqb Z.to_nat Pos.to_nat Pos.iter_op Init.Nat.add
       W_2m3 E_2 of_rows rows cols entry entry_1_0 prototype hd].
  change (Pos.to_nat 1) with 1%nat. cbv iota.
  destruct clamp_W_2m3 as [H0 H1]. rewrite H0, H1.
  replace ((0 + 1 * (2 / 2)) / 2) with (1 / 2) by lra.
  replace ((0 + 1 * (-3 / 3)) / 2) with (- (1 / 2)) by lra.
  replace ((0 + 2 * (2 / 2)) / 2) with 1 by lra.
  replace ((0 + 2 * (-3 / 3)) / 2) with (-1) by lra.
  rewrite !Rplus_0_l. simpl INR. lra.
Defined.

Lemma unweighted_unregularized_is_reference_witness :
  run_compute_loss no_miner no_regularizer 2 W_2m3 E_2 [0%Z; 1%Z] tt =
  (inr (reference_loss 2 W_2m3 E_2 [0%Z; 1%Z]), true).
Proof.
  exact (unweighted_unregularized_is_reference no_miner no_regularizer
           2 W_2m3 E_2 [0%Z; 1%Z] tt eq_refl eq_refl Nat.lt_0_2
           class_labels_two_samples R2_neq_R0 prototypes_W_2m3_long eq_refl eq_refl).
Defined.

(** *** A prototype shorter than [eps] *)

Lemma ln_half : ln (exp 1 / (exp 1 + exp 1)) = - ln 2.
Proof.
  pose proof (exp_pos 1) as He.
  replace (exp 1 / (exp 1 + exp 1)) with (/ 2) by (field; lra).
  apply ln_Rinv. lra.
Qed.

Lemma ln_2_half_lt : ln 2 + 1 / 2 < ln (exp (1 / 2) + exp 1).
Proof.
  pose proof (exp_pos (1 / 2)) as He.
  assert (Hlt : exp (1 / 2) < exp 1) by (apply exp_increasing; lra).
  rewrite <- (ln_exp (1 / 2)) at 1.
  rewrite <- ln_mult by lra.
  apply ln_increasing; lra.
Qed.

Lemma run_W_short :
  run_compute_loss no_miner no_regularizer 1 W_short E_1 [0%Z] tt =
  (inr (ln (exp (1 / 2) + exp 1) - 1 / 2), true).
Proof.
  assert (HL : class_labels (cols W_short) [0%Z]) by (constructor; [simpl; lia | constructor]).
  rewrite run_value;
    [ | reflexivity | reflexivity | exact Nat.lt_0_1
      | now apply class_labels_targets_ok | exact R1_neq_R0 | reflexivity ].
  f_equal. f_equal.
  unfold nll_batch. change (rows (logits 1 W_short E_1)) with 1%nat.
  cbn [seq combine map fst snd no_miner ones vmul].
  rewrite (nll_elementary 1 W_short E_1 0 0%Z eq_refl).
  unfold vmean, no_regularizer.
  cbn [Z.eqb Z.to_nat vsum fold_right length sigma
       W_short E_1 of_rows rows cols entry prototype hd nth].
  rewrite !l2_norm_one_dim. cbn [prototype W_short of_rows entry nth].
  rewrite (Rabs_right 5e-13), Rabs_R1 by lra.
  rewrite (Rmax_right 5e-13 1e-12), (Rmax_left 1 1e-12) by lra.
  replace ((0 + 1 * (5e-13 / 1e-12)) / 1) with (1 / 2) by lra.
  replace ((0 + 1 * (1 / 1)) / 1) with 1 by lra.
  rewrite !Rplus_0_l. simpl INR. lra.
Qed.

Lemma reference_W_short : reference_loss 1 W_short E_1 [0%Z] = ln 2.
Proof.
  unfold reference_loss, reference_cross_entropy, reference_logit, cosine_similarity.
  change (rows W_short) with 1%nat. change (cols W_short) with 2%nat.
  cbn [length sigma nth Z.to_nat].
  rewrite !l2_norm_one_dim.
  cbn [embedding prototype W_short E_1 of_rows entry nth].
  rewrite (Rabs_right 5e-13), Rabs_R1 by lra.
  replace ((0 + 1 * 5e-13) / (1 * 5e-13) * 1 * (1 / 1)) with 1 by (field; lra).
  replace ((0 + 1 * 1) / (1 * 1) * 1 * (1 / 1)) with 1 by lra.
  rewrite !Rplus_0_l, ln_half. simpl INR. lra.
Qed.

(** C3 fails as stated.  The first prototype of [W_short] has norm 5e-13,
    below [eps]: the call divides it by [eps], the logit of class 0 is 1/2
    where the cosine similarity is 1, and the value returned is not the
    reference loss [ln 2]. *)
Lemma short_prototype_breaks_reference :
  no_miner tt [0%Z] = [1] /\
  no_regularizer (transpose W_short) = 0 /\
  run_compute_loss no_miner no_regularizer 1 W_short E_1 [0%Z] tt
    = (inr (ln (exp (1 / 2) + exp 1) - 1 / 2), true) /\
  reference_loss 1 W_short E_1 [0%Z] = ln 2 /\
  fst (run_compute_loss no_miner no_regularizer 1 W_short E_1 [0%Z] tt)
    <> inr (reference_loss 1 W_short E_1 [0%Z]).
Proof.
  split; [reflexivity|]. split; [reflexivity|].
  split; [exact run_W_short|]. split; [exact reference_W_short|].
  rewrite run_W_short, reference_W_short. cbn [fst].
  intros H. injection H as H. pose proof ln_2_half_lt. lra.
Qed.

(** *** Overflow *)


(** The zero column in binary64: it is divided by [eps] and stays zero. *)
Example zero_column_binary64 :
  Binary64.normalize_dim0 Binary64.W_01 = Binary64.W_01 /\
  Binary64.all_finite (Binary64.normalize_dim0 Binary64.W_01) = true.
Proof. split; vm_compute; reflexivity. Qed.

Lemma sum_zero_squares_binary64 (v : list PrimFloat.float) :
  Forall (fun x => x = PrimFloat.zero) v ->
  Binary64.sum (map (fun x => PrimFloat.mul x x) v) = PrimFloat.zero.
Proof.
  unfold Binary64.sum.
  change (Forall (fun x => x = PrimFloat.zero) v ->
          fold_left PrimFloat.add (map (fun x => PrimFloat.mul x x) v) PrimFloat.zero
          = PrimFloat.zero).
  induction 1 as [|x v Hx _ IH]; [reflexivity|].
  subst x. exact IH.
Qed.

(** In binary64 the norm of any zero column is 0 and its divisor is [eps]:
    the entries of the column are divided by [eps], and 0 / [eps] is 0. *)
Lemma zero_column_divisor_binary64 (A : list (list PrimFloat.float)) (j : nat) :
  Forall (fun row => nth j row PrimFloat.zero = PrimFloat.zero) A ->
  Binary64.norm (Binary64.column A j) = PrimFloat.zero /\
  Binary64.fmax (Binary64.norm (Binary64.column A j)) Binary64.eps = Binary64.eps /\
  PrimFloat.div PrimFloat.zero Binary64.eps = PrimFloat.zero.
Proof.
  intros H.
  assert (Hn : Binary64.norm (Binary64.column A j) = PrimFloat.zero).
  { unfold Binary64.norm. rewrite sum_zero_squares_binary64; [reflexivity|].
    unfold Binary64.column. now apply Forall_map. }
  split; [exact Hn|]. rewrite Hn. split; reflexivity.
Qed.





(** *** A zero column *)




(** *** The further properties *)

Lemma call_raises_first_failed_check_witness :
  raised (run_compute_loss no_miner no_regularizer 1 W_11 E_1 [5%Z] tt) = Some IndexError /\
  raised (run_compute_loss no_miner no_regularizer 1 W_11 E_2 [0%Z] tt) = Some ValueError /\
  raised (run_compute_loss no_miner no_regularizer 1 W_11 W_11 [5%Z] tt) = Some RuntimeError.
Proof.
  split; [|split].
  - exact (call_raises_first_failed_check no_miner no_regularizer 1 W_11 E_1 [5%Z] tt eq_refl).
  - exact (call_raises_first_failed_check no_miner no_regularizer 1 W_11 E_2 [0%Z] tt eq_refl).
  - exact (call_raises_first_failed_check no_miner no_regularizer 1 W_11 W_11 [5%Z] tt eq_refl).
Defined.

Lemma masked_batch_costs_only_penalty_witness :
  run_compute_loss zero_miner first_entry 1 W_11 E_2 [ignore_index; 1%Z] tt =
  (inr (first_entry (transpose W_11)), true).
Proof.
  exact (masked_batch_costs_only_penalty zero_miner first_entry 1 W_11 E_2
           [ignore_index; 1%Z] tt eq_refl eq_refl Nat.lt_0_2 eq_refl R1_neq_R0
           (Forall2_cons _ _ (or_introl eq_refl)
              (Forall2_cons _ _ (or_intror eq_refl) (Forall2_nil _)))).
Defined.

Lemma loss_nonnegative_witness :
  exists r, run_compute_loss no_miner no_regularizer 1 W_11 E_1 [0%Z] tt = (inr r, true)
            /\ 0 <= r.
Proof.
  exact (proj2 (loss_nonnegative no_miner no_regularizer 1 W_11 E_1 [0%Z] tt
           eq_refl eq_refl Nat.lt_0_1 eq_refl R1_neq_R0 eq_refl
           (Forall_cons _ Rle_0_1 (Forall_nil _)) (Rle_refl 0))).
Defined.

Lemma single_class_loss_is_penalty_witness :
  run_compute_loss no_miner first_entry 1 W_1 E_1 [0%Z] tt =
  (inr (first_entry (transpose W_1)), true).
Proof.
  exact (proj2 (single_class_loss_is_penalty no_miner first_entry 1 W_1 E_1 [0%Z] tt
                  eq_refl eq_refl eq_refl Nat.lt_0_1 eq_refl R1_neq_R0 eq_refl)).
Defined.
